(** * Text chunking for RAG retrieval: a shallow embedding of
    [backend/app/ingestion/chunker.py] and of the chunk-storing step of
    [backend/app/ingestion/pipeline.py].

    Python strings are Rocq [string]s (ASCII characters); a Python [int]
    is a [Z] where it can be negative (the configuration) and a [nat]
    where it cannot (token counts, list positions).  Python dicts live in
    an explicit heap so that the aliasing of metadata mappings is visible. *)

From Stdlib Require Import String Ascii ZArith List Lia.
From stdpp Require Import base list gmap strings pretty sorting.

Import ListNotations.
Open Scope Z_scope.

(* ================================================================== *)
(** ** Python string primitives *)
(* ================================================================== *)

Module PyStr.

(** [str.isspace] restricted to ASCII: \t \n \v \f \r, the separators
    \x1c-\x1f and the space.  This is also what [\s] of [re] matches. *)
Definition is_space (c : ascii) : bool :=
  let n := nat_of_ascii c in
  ((9 <=? n) && (n <=? 13))%nat || ((28 <=? n) && (n <=? 32))%nat.

Definition is_upper (c : ascii) : bool :=
  let n := nat_of_ascii c in ((65 <=? n) && (n <=? 90))%nat.

(** The sentence terminators of the lookbehind [(?<=[.!?])]. *)
Definition is_term (c : ascii) : bool :=
  match c with
  | "."%char | "!"%char | "?"%char => true
  | _ => false
  end.

Fixpoint lstrip_l (l : list ascii) : list ascii :=
  match l with
  | [] => []
  | c :: r => if is_space c then lstrip_l r else l
  end.

Definition strip_l (l : list ascii) : list ascii :=
  rev (lstrip_l (rev (lstrip_l l))).

(** [s.strip()] *)
Definition strip (s : string) : string :=
  string_of_list_ascii (strip_l (list_ascii_of_string s)).

(** [s.split()]: maximal runs of non-space characters.  [cur] is the
    current word, reversed. *)
Fixpoint split_go (cur : list ascii) (l : list ascii) : list (list ascii) :=
  match l with
  | [] => match cur with [] => [] | _ => [rev cur] end
  | c :: r =>
      if is_space c then
        match cur with
        | [] => split_go [] r
        | _ => rev cur :: split_go [] r
        end
      else split_go (c :: cur) r
  end.

Definition split (s : string) : list string :=
  map string_of_list_ascii (split_go [] (list_ascii_of_string s)).

(** [" ".join(xs)] *)
Definition join (xs : list string) : string := String.concat " " xs.

End PyStr.

(* ================================================================== *)
(** ** [TextChunker._split_into_sentences] *)
(* ================================================================== *)

Module Sentences.
Import PyStr.

(** [re.split(r'(?<=[.!?])\s+(?=[A-Z])', text)].  A separator starts
    right after a terminator, is a run of whitespace, and must be followed
    by an upper-case letter; the greedy [\s+] can only succeed on the
    maximal run, since a shorter run is followed by whitespace.  [cur] is
    the current piece reversed; [pend = Some ws] means that a terminator
    was just read and [ws] (reversed) is the whitespace read since. *)
Fixpoint re_split_go (cur : list ascii) (pend : option (list ascii))
    (l : list ascii) : list (list ascii) :=
  match l with
  | [] =>
      match pend with
      | Some ws => [rev (ws ++ cur)]
      | None => [rev cur]
      end
  | c :: r =>
      match pend with
      | Some ws =>
          if is_space c then re_split_go cur (Some (c :: ws)) r
          else if is_upper c && negb (bool_decide (ws = [])) then
            rev cur :: re_split_go [c] None r
          else re_split_go (c :: ws ++ cur)
                 (if is_term c then Some [] else None) r
      | None =>
          re_split_go (c :: cur) (if is_term c then Some [] else None) r
      end
  end.

Definition re_split (text : string) : list string :=
  map string_of_list_ascii (re_split_go [] None (list_ascii_of_string text)).

(** [_split_into_sentences]: strip every piece, keep the non-empty ones. *)
Definition split_into_sentences (text : string) : list string :=
  filter (fun s => negb (bool_decide (s = ""%string))) (map strip (re_split text)).

End Sentences.

(* ================================================================== *)
(** ** Python objects: dict values and a heap of mutable objects *)
(* ================================================================== *)

Module Heap.

Definition loc := nat.

(** Values stored in a metadata mapping ([Dict[str, Any]]).  Strings and
    integers are immutable; a list or a dict is held by reference. *)
Inductive PyVal :=
  | VNone
  | VStr (s : string)
  | VInt (z : Z)
  | VRef (l : loc).

(** Mutable heap objects. *)
Inductive PyObj :=
  | ODict (d : gmap string PyVal)
  | OList (xs : list PyVal).

Abbreviation heap := (gmap loc PyObj).

(** Allocation of a new object at an address not yet in use. *)
Definition alloc (h : heap) (o : PyObj) : heap * loc :=
  let l := fresh (dom h) in (<[l := o]> h, l).

(** The entries of the dict at [l]; the code only ever passes a dict
    there, any other object reads as empty. *)
Definition dict_at (h : heap) (l : loc) : gmap string PyVal :=
  match h !! l with
  | Some (ODict d) => d
  | _ => ∅
  end.

(** [d[k]] read through the heap. *)
Definition dict_get (h : heap) (l : loc) (k : string) : option PyVal :=
  dict_at h l !! k.

(** [d[k] = v] on the dict at [l]. *)
Definition dict_set (h : heap) (l : loc) (k : string) (v : PyVal) : heap :=
  <[l := ODict (<[k := v]> (dict_at h l))]> h.

(** [xs.append(v)] on the list at [l]. *)
Definition list_append (h : heap) (l : loc) (v : PyVal) : heap :=
  match h !! l with
  | Some (OList xs) => <[l := OList (xs ++ [v])]> h
  | _ => h
  end.

End Heap.

(* ================================================================== *)
(** ** [TextChunk], [TextChunker] *)
(* ================================================================== *)

Module Chunker.
Import PyStr Heap.

(** A tiktoken encoding, seen through [count_tokens]:
    [len(self.encoding.encode(text))]. *)
Definition Encoding := string -> nat.

Record TextChunker := mkTextChunker {
  chunk_size : Z;
  chunk_overlap : Z;
  encoding : Encoding
}.

Record TextChunk := mkTextChunk {
  text : string;
  chunk_index : nat;
  page_number : Z;
  metadata : loc;
  token_count : nat
}.

(** [TextChunker.__init__]: the sizes are stored as given; the only step
    that can fail is [tiktoken.get_encoding], passed here as
    [get_encoding] (it returns [None] for an unknown name). *)
Definition init (get_encoding : string -> option Encoding)
    (chunk_size chunk_overlap : Z) (encoding_name : string)
    : option TextChunker :=
  match get_encoding encoding_name with
  | Some e => Some (mkTextChunker chunk_size chunk_overlap e)
  | None => None
  end.

Section Ops.
Variable self : TextChunker.

Definition count_tokens (t : string) : nat := encoding self t.

(** [TextChunk.__init__]'s [metadata or {}]: an empty dict is falsy, so a
    new empty dict is allocated in its place. *)
Definition text_chunk_init (h : heap) (t : string) (idx : nat) (page : Z)
    (md : loc) : heap * TextChunk :=
  let '(h', md') :=
    if bool_decide (dict_at h md = ∅) then alloc h (ODict ∅) else (h, md) in
  (h', mkTextChunk t idx page md' 0).

(** [_create_chunk]: the text is stripped, the metadata is
    [base_metadata.copy()], and the token count is taken on the text as
    passed in. *)
Definition create_chunk (h : heap) (t : string) (idx : nat) (page : Z)
    (base : loc) : heap * TextChunk :=
  let '(h1, cp) := alloc h (ODict (dict_at h base)) in
  let '(h2, c) := text_chunk_init h1 (strip t) idx page cp in
  (h2, {| text := c.(text); chunk_index := c.(chunk_index);
          page_number := c.(page_number); metadata := c.(metadata);
          token_count := count_tokens t |}).

(** The loop of [_get_overlap] over [reversed(sentences)], with its
    [break]. *)
Fixpoint overlap_go (rs : list string) (acc : list string) (ot : nat)
    : list string * nat :=
  match rs with
  | [] => (acc, ot)
  | s :: rs' =>
      let st := count_tokens s in
      if Z.of_nat (ot + st) <=? chunk_overlap self
      then overlap_go rs' (s :: acc) (ot + st)
      else (acc, ot)
  end.

(** [_get_overlap] (its [total_tokens] argument is unused). *)
Definition get_overlap (sentences : list string) (total_tokens : nat)
    : list string * nat :=
  match sentences with
  | [] => ([], 0%nat)
  | _ => overlap_go (rev sentences) [] 0
  end.

(** The loop of [_split_long_text]. *)
Fixpoint split_long_go (words : list string) (chunks cur : list string)
    (ct : nat) : list string :=
  match words with
  | [] => match cur with [] => chunks | _ => chunks ++ [join cur] end
  | w :: ws =>
      let wt := count_tokens (w ++ " ") in
      if Z.of_nat (ct + wt) >? chunk_size self then
        split_long_go ws
          (match cur with [] => chunks | _ => chunks ++ [join cur] end)
          [w] wt
      else split_long_go ws chunks (cur ++ [w]) (ct + wt)
  end.

(** [_split_long_text] *)
Definition split_long_text (t : string) : list string :=
  split_long_go (split t) [] [] 0.

(** The local variables of the loop of [chunk_text]. *)
Record St := mkSt {
  chunks : list TextChunk;
  current_chunk : list string;
  current_tokens : nat;
  idx : nat;
  hp : heap
}.

Section Loop.
Variable page : Z.
Variable base : loc.

(** [chunks.append(self._create_chunk(t, chunk_index, ...)); chunk_index += 1] *)
Definition emit (st : St) (t : string) : St :=
  let '(h', c) := create_chunk st.(hp) t st.(idx) page base in
  mkSt (st.(chunks) ++ [c]) st.(current_chunk) st.(current_tokens)
       (S st.(idx)) h'.

Definition emit_all (st : St) (ts : list string) : St := fold_left emit ts st.

(** One iteration of [for sentence in sentences]. *)
Definition step (st : St) (sentence : string) : St :=
  let sentence_tokens := count_tokens sentence in
  if Z.of_nat sentence_tokens >? chunk_size self then
    let st1 :=
      match st.(current_chunk) with
      | [] => st
      | cur =>
          let st' := emit st (join cur) in
          mkSt st'.(chunks) [] 0 st'.(idx) st'.(hp)
      end in
    emit_all st1 (split_long_text sentence)
  else
    let st1 :=
      if Z.of_nat (st.(current_tokens) + sentence_tokens) >? chunk_size self
      then
        match st.(current_chunk) with
        | [] => st
        | cur =>
            let st' := emit st (join cur) in
            let '(ov, ot) := get_overlap cur st.(current_tokens) in
            mkSt st'.(chunks) ov ot st'.(idx) st'.(hp)
        end
      else st in
    mkSt st1.(chunks) (st1.(current_chunk) ++ [sentence])
         (st1.(current_tokens) + sentence_tokens) st1.(idx) st1.(hp).

(** The loop followed by [if current_chunk: ...]. *)
Definition run (h : heap) (sentences : list string) : St :=
  let st := fold_left step sentences (mkSt [] [] 0 0 h) in
  match st.(current_chunk) with
  | [] => st
  | cur => emit st (join cur)
  end.

End Loop.

(** [base_metadata or {}]: [None] and an empty dict are falsy. *)
Definition base_or_empty (h : heap) (base : option loc) : heap * loc :=
  match base with
  | Some l => if bool_decide (dict_at h l = ∅) then alloc h (ODict ∅) else (h, l)
  | None => alloc h (ODict ∅)
  end.

(** [chunk_text] *)
Definition chunk_text (h : heap) (t : string) (page_number : Z)
    (base_metadata : option loc) : heap * list TextChunk :=
  if bool_decide (strip t = ""%string) then (h, [])
  else
    let '(h1, base) := base_or_empty h base_metadata in
    let st := run page_number base h1 (Sentences.split_into_sentences t) in
    (st.(hp), st.(chunks)).

End Ops.
End Chunker.

(* ================================================================== *)
(** ** [chunk_pages] and [IngestionPipeline._store_chunks] *)
(* ================================================================== *)

Module Pipeline.
Import PyStr Heap Chunker.

(** [ExtractedPage]; its [metadata] is only read through [.get]. *)
Record ExtractedPage := mkPage {
  pg_number : Z;
  pg_text : string;
  pg_metadata : gmap string PyVal
}.

(** [TextChunker.chunk_pages]: a fresh base dict per page, then
    [chunk_text] on the page, results concatenated. *)
Fixpoint chunk_pages (self : TextChunker) (h : heap)
    (pages : list ExtractedPage) (document_name category : string)
    : heap * list TextChunk :=
  match pages with
  | [] => (h, [])
  | page :: rest =>
      let base_md : gmap string PyVal :=
        <["source" := default (VStr "") (pg_metadata page !! "source"%string)]>
        (<["category" := VStr category]>
        (<["document_name" := VStr document_name]> ∅)) in
      let '(h1, bl) := alloc h (ODict base_md) in
      let '(h2, page_chunks) :=
        chunk_text self h1 (pg_text page) (pg_number page) (Some bl) in
      let '(h3, all_rest) := chunk_pages self h2 rest document_name category in
      (h3, page_chunks ++ all_rest)
  end.

(** [f"{document_id}_{i}"] *)
Definition chunk_id (document_id : string) (i : nat) : string :=
  document_id +:+ "_" +:+ pretty i.

(** [uploaded_by or "unknown"] *)
Definition uploader (uploaded_by : option string) : string :=
  match uploaded_by with
  | Some s => if bool_decide (s = ""%string) then "unknown" else s
  | None => "unknown"
  end.

Section Store.
Context {Emb : Type}.

(** The loop of [_store_chunks] over [enumerate(zip(chunks, embeddings))];
    [now] stands for [datetime.now().isoformat()]. It returns the
    [ids], [documents] and [metadatas] handed to [add_documents]. *)
Fixpoint store_go (document_id filename category : string)
    (uploaded_by : option string) (now : string) (i : nat)
    (cs : list TextChunk) (es : list Emb)
    : list string * list string * list (gmap string PyVal) :=
  match cs, es with
  | c :: cs', _ :: es' =>
      let '(ids, docs, mds) :=
        store_go document_id filename category uploaded_by now (S i) cs' es' in
      let md : gmap string PyVal :=
        <["uploaded_at" := VStr now]>
        (<["uploaded_by" := VStr (uploader uploaded_by)]>
        (<["token_count" := VInt (Z.of_nat (token_count c))]>
        (<["chunk_index" := VInt (Z.of_nat (chunk_index c))]>
        (<["page_number" := VInt (page_number c)]>
        (<["category" := VStr category]>
        (<["document_name" := VStr filename]>
        (<["document_id" := VStr document_id]> ∅))))))) in
      (chunk_id document_id i :: ids, text c :: docs, md :: mds)
  | _, _ => ([], [], [])
  end.

Definition store_chunks (document_id filename category : string)
    (chunks : list TextChunk) (embeddings : list Emb)
    (uploaded_by : option string) (now : string)
    : list string * list string * list (gmap string PyVal) :=
  store_go document_id filename category uploaded_by now 0 chunks embeddings.

End Store.
End Pipeline.

(* ================================================================== *)
(** ** [DocumentExtractor] ([backend/app/ingestion/extractor.py]) *)
(* ================================================================== *)

Module Extractor.
Import PyStr Heap Pipeline.

Definition nl : ascii := "010"%char.

(** [re.sub(c + '{k,}', rep, text)] for one character [c]: a match is a
    maximal run of [c] of length at least [k] (the quantifier is greedy,
    and a shorter run cannot match at any of its positions), replaced by
    [rep].  [n] is the length of the run read so far. *)
Definition flush_run (c : ascii) (k : nat) (rep : list ascii) (n : nat) : list ascii :=
  if (k <=? n)%nat then rep else repeat c n.

Fixpoint sub_runs (c : ascii) (k : nat) (rep : list ascii) (n : nat)
    (l : list ascii) : list ascii :=
  match l with
  | [] => flush_run c k rep n
  | x :: r =>
      if bool_decide (x = c) then sub_runs c k rep (S n) r
      else flush_run c k rep n ++ x :: sub_runs c k rep 0 r
  end.

Definition re_sub_runs (c : ascii) (k : nat) (rep : string) (t : string) : string :=
  string_of_list_ascii
    (sub_runs c k (list_ascii_of_string rep) 0 (list_ascii_of_string t)).

(** [text.split(sep)] for a one-character [sep]: every occurrence
    separates, so [n] separators give [n + 1] pieces. *)
Fixpoint split_sep_go (sep : ascii) (cur : list ascii) (l : list ascii)
    : list (list ascii) :=
  match l with
  | [] => [rev cur]
  | x :: r =>
      if bool_decide (x = sep) then rev cur :: split_sep_go sep [] r
      else split_sep_go sep (x :: cur) r
  end.

Definition split_on (sep : ascii) (t : string) : list string :=
  map string_of_list_ascii (split_sep_go sep [] (list_ascii_of_string t)).

(** [_clean_text] *)
Definition clean_text (text : string) : string :=
  let text := re_sub_runs nl 3 (String nl (String nl EmptyString)) text in
  let text := re_sub_runs " " 2 " " text in
  let lines := map strip (split_on nl text) in
  let text := String.concat (String nl EmptyString) lines in
  strip text.

(** A page of a PyMuPDF document as [_extract_pdf] reads it:
    [page.get_text("text")], and [page.rect.width] and [page.rect.height],
    floats that are only copied into the metadata (carried here as the
    values the page supplies). *)
Record PdfPage := mkPdfPage {
  get_text : string;
  rect_width : PyVal;
  rect_height : PyVal
}.

(** The loop of [_extract_pdf] over [range(len(doc))]. *)
Fixpoint pdf_pages (file_path : string) (page_num : nat) (doc : list PdfPage)
    : list ExtractedPage :=
  match doc with
  | [] => []
  | page :: rest =>
      let text := clean_text (get_text page) in
      let pages := pdf_pages file_path (S page_num) rest in
      if bool_decide (strip text = ""%string) then pages
      else
        mkPage (Z.of_nat (S page_num)) text
          (<["page_height" := rect_height page]>
          (<["page_width" := rect_width page]>
          (<["source" := VStr file_path]> ∅))) :: pages
  end.

(** [_extract_pdf]: [fitz.open] and the reading of the pages are
    [open_pdf]; an exception there ([inl], with its message) is logged and
    raised again. *)
Definition extract_pdf (open_pdf : string -> string + list PdfPage)
    (file_path : string) : string + list ExtractedPage :=
  match open_pdf file_path with
  | inl e => inl e
  | inr doc => inr (pdf_pages file_path 0 doc)
  end.

(** A python-docx [Document] as [_extract_docx] reads it: the texts of
    its paragraphs, and its tables as rows of cell texts. *)
Record Docx := mkDocx {
  paragraphs : list string;
  tables : list (list (list string))
}.

(** [row_text] of one table row: its non-blank cells, stripped. *)
Definition row_text (cells : list string) : list string :=
  map strip (filter (fun c => strip c <> ""%string) cells).

(** [full_text]: the non-blank paragraphs, then one line per table row
    with a non-blank cell. *)
Definition full_text (doc : Docx) : list string :=
  filter (fun p => strip p <> ""%string) (paragraphs doc) ++
  flat_map (fun table =>
    flat_map (fun row =>
      match row_text row with
      | [] => []
      | rt => [String.concat " | " rt]
      end) table) (tables doc).

(** [_extract_docx]: [Document(file_path)] is [open_docx]. *)
Definition extract_docx (open_docx : string -> string + Docx)
    (file_path : string) : string + list ExtractedPage :=
  match open_docx file_path with
  | inl e => inl e
  | inr doc =>
      let combined_text :=
        clean_text (String.concat (String nl (String nl EmptyString)) (full_text doc)) in
      inr (if bool_decide (strip combined_text = ""%string) then []
           else [mkPage 1 combined_text
                   (<["table_count" := VInt (Z.of_nat (length (tables doc)))]>
                   (<["paragraph_count" := VInt (Z.of_nat (length (paragraphs doc)))]>
                   (<["source" := VStr file_path]> ∅)))])
  end.

End Extractor.

(* ================================================================== *)
(** ** [EmbeddingService.get_embeddings] ([backend/app/ingestion/embedder.py]) *)
(* ================================================================== *)

Module Embedder.

Definition batch_size : nat := 100.

(** [range(start, stop, step)] for a positive [step]. *)
Definition py_range (start stop step : nat) : list nat :=
  map (fun j => start + j * step)%nat (seq 0 ((stop - start + step - 1) / step)).

Section Embed.
Context {Emb : Type}.

(** [self.client.embeddings.create(input=batch, model=self.model)]: the
    items of [response.data] as ([index], [embedding]) pairs, or the
    message of the exception it raises. *)
Variable create : list string -> string + list (nat * Emb).

(** The order of [key=lambda x: x.index]. *)
Definition index_le (x y : nat * Emb) : Prop := (x.1 <= y.1)%nat.

Global Instance index_le_dec : RelDecision index_le.
Proof. intros x y. unfold index_le. apply _. Defined.

(** [sorted(response.data, key=lambda x: x.index)] (a stable sort). *)
Definition sort_by_index (data : list (nat * Emb)) : list (nat * Emb) :=
  merge_sort index_le data.

(** [get_embeddings]: an exception of a batch is logged and raised again. *)
Definition get_embeddings (texts : list string) : string + list Emb :=
  match texts with
  | [] => inr []
  | _ =>
      fold_left (fun acc i =>
        match acc with
        | inl e => inl e
        | inr all_embeddings =>
            let batch := take batch_size (drop i texts) in
            match create batch with
            | inl e => inl e
            | inr data =>
                inr (all_embeddings ++ map snd (sort_by_index data))
            end
        end) (py_range 0 (length texts) batch_size) (inr [])
  end.

End Embed.
End Embedder.

(* ================================================================== *)
(** ** [VectorStoreService] ([backend/app/services/vector_store.py]) *)
(* ================================================================== *)

Module VectorStore.
Import Heap.

Global Instance PyVal_eq_dec : EqDecision PyVal.
Proof. solve_decision. Defined.

(** The vecs collection: a record (embedding, metadata) per id. *)
Abbreviation Collection Emb := (gmap string (Emb * gmap string PyVal)).

Section Store.
Context {Emb : Type}.

(** The records of [add_documents]: [zip(ids, documents, embeddings,
    metadatas)], each metadata extended by [{**meta, "text": doc}]. *)
Fixpoint records (ids documents : list string) (embeddings : list Emb)
    (metadatas : list (gmap string PyVal))
    : list (string * Emb * gmap string PyVal) :=
  match ids, documents, embeddings, metadatas with
  | id_ :: ids', doc :: docs', emb :: embs', meta :: metas' =>
      (id_, emb, <["text" := VStr doc]> meta) :: records ids' docs' embs' metas'
  | _, _, _, _ => []
  end.

(** [self.collection.upsert(records=records)]: each record is written
    under its id, replacing the record that had this id. *)
Definition upsert (c : Collection Emb) (recs : list (string * Emb * gmap string PyVal))
    : Collection Emb :=
  fold_left (fun c r => <[r.1.1 := (r.1.2, r.2)]> c) recs c.

(** [add_documents] *)
Definition add_documents (c : Collection Emb) (ids documents : list string)
    (embeddings : list Emb) (metadatas : list (gmap string PyVal)) : Collection Emb :=
  upsert c (records ids documents embeddings metadatas).

Context {Dist : Type}.

(** The loop of [search] over the query's rows [(id, distance, metadata)];
    [meta.pop("text", "")] takes the text out of the metadata.  It returns
    [ids], [documents], [metadatas] and [distances]. *)
Definition format_results (results : list (string * Dist * gmap string PyVal))
    : list string * list PyVal * list (gmap string PyVal) * list Dist :=
  (map (fun r => r.1.1) results,
   map (fun r => default (VStr "") (r.2 !! "text"%string)) results,
   map (fun r => delete "text"%string r.2) results,
   map (fun r => r.1.2) results).

End Store.
End VectorStore.

(* ================================================================== *)
(** ** [IngestionPipeline.ingest_document] *)
(* ================================================================== *)

Module Ingest.
Import Heap Chunker Pipeline VectorStore.

(** [DocumentCategory] and its [.value]. *)
Inductive DocumentCategory :=
  | RULES | EXAMS | COURSES | HOSTEL | TIMETABLE | NOTICES | HANDBOOK | OTHER.

Definition value (c : DocumentCategory) : string :=
  match c with
  | RULES => "rules" | EXAMS => "exams" | COURSES => "courses"
  | HOSTEL => "hostel" | TIMETABLE => "timetable" | NOTICES => "notices"
  | HANDBOOK => "handbook" | OTHER => "other"
  end.

(** [DocumentUploadResponse]; [uploaded_at] is [datetime.now()]. *)
Record DocumentUploadResponse := mkResponse {
  id : string;
  filename : string;
  category : DocumentCategory;
  page_count : nat;
  chunk_count : nat;
  status : string;
  message : string;
  uploaded_at : string
}.

Section Ingest.
Context {Emb : Type}.
Variable chunker : TextChunker.
(** [DocumentExtractor.extract]: the pages, or the message of the
    exception it raises. *)
Variable extract : string -> string + list ExtractedPage.
(** The embeddings API of [EmbeddingService]. *)
Variable create : list string -> string + list (nat * Emb).
(** [self.vector_store.add_documents]: the collection after the call, and
    the message of the exception it raised, if any. *)
Variable store : Collection Emb -> list string -> list string -> list Emb ->
  list (gmap string PyVal) -> Collection Emb * option string.

(** [ingest_document]: [document_id] is [str(uuid.uuid4())], [now] is
    [datetime.now()], [h] the heap the chunker allocates in and [coll] the
    vector collection.  The [try] turns an exception into an [error]
    response. *)
Definition ingest_document (h : heap) (coll : Collection Emb)
    (document_id file_path filename : string) (category : DocumentCategory)
    (uploaded_by : option string) (now : string)
    : DocumentUploadResponse * Collection Emb :=
  let response page_count chunk_count status message :=
    mkResponse document_id filename category page_count chunk_count status message now in
  let on_error (c : Collection Emb) (e : string) :=
    (response 0%nat 0%nat "error" ("Error processing document: " +:+ e), c) in
  match extract file_path with
  | inl e => on_error coll e
  | inr pages =>
      let page_count := length pages in
      match pages with
      | [] => (response 0%nat 0%nat "error" "No text content found in document", coll)
      | _ =>
          let '(_, chunks) := chunk_pages chunker h pages filename (value category) in
          match chunks with
          | [] => (response page_count 0%nat "error" "No chunks created from document", coll)
          | _ =>
              match Embedder.get_embeddings create (map text chunks) with
              | inl e => on_error coll e
              | inr embeddings =>
                  let '(ids, documents, metadatas) :=
                    store_chunks document_id filename (value category) chunks
                      embeddings uploaded_by now in
                  match store coll ids documents embeddings metadatas with
                  | (coll', Some e) => on_error coll' e
                  | (coll', None) =>
                      (response page_count (length chunks) "success"
                         ("Document processed successfully. Created " +:+
                          pretty (length chunks) +:+ " searchable chunks."), coll')
                  end
              end
          end
      end
  end.

End Ingest.
End Ingest.

(* ================================================================== *)
(** ** A concrete encoding for evaluation *)
(* ================================================================== *)

Module Enc.
(** A word-level encoding: one token per whitespace-separated word.  It
    stands in for a tiktoken encoding when the chunker is run on concrete
    text below. *)
Definition ws_tokens : Chunker.Encoding := fun s => length (PyStr.split s).

(** [tiktoken.get_encoding] with a single known name. *)
Definition get_encoding (name : string) : option Chunker.Encoding :=
  if bool_decide (name = "cl100k_base"%string) then Some ws_tokens else None.

Definition chunker (cs co : Z) : Chunker.TextChunker :=
  Chunker.mkTextChunker cs co ws_tokens.
End Enc.

(* ================================================================== *)
(** ** Specification predicates used by the proofs *)
(* ================================================================== *)

Module Spec.
Import PyStr Heap Chunker.

(** The projection of a chunk that the index and text lemmas follow. *)
Definition view (c : TextChunk) : string * nat * nat :=
  (text c, chunk_index c, token_count c).

(** The indices issued so far are [0 .. idx - 1]. *)
Definition idx_inv (st : St) : Prop :=
  map chunk_index (chunks st) = seq 0 (idx st).

Section Chunks.
Variable self : TextChunker.

Fixpoint made (i : nat) (ts : list string) : list (string * nat * nat) :=
  match ts with
  | [] => []
  | t :: ts' => (strip t, i, count_tokens self t) :: made (S i) ts'
  end.

(** Token total of a list of sentences, each counted on its own. *)
Fixpoint tok (l : list string) : nat :=
  match l with
  | [] => 0%nat
  | s :: l' => (count_tokens self s + tok l')%nat
  end.

(** Word budget of [_split_long_text]: each word counted with a trailing
    space. *)
Definition wt (w : string) : nat := count_tokens self (w ++ " ").

Fixpoint budget (g : list string) : nat :=
  match g with
  | [] => 0%nat
  | w :: g' => (wt w + budget g')%nat
  end.

(** A piece is a single word, or its words fit the budget. *)
Definition fits (g : list string) : Prop :=
  length g = 1%nat ∨ Z.of_nat (budget g) <= chunk_size self.

(** Greedy packing: every piece is non-empty and fits, and the first word
    of the next piece would not have fitted. *)
Fixpoint greedy (gs : list (list string)) : Prop :=
  match gs with
  | [] => True
  | g :: rest =>
      g ≠ [] ∧ fits g ∧
      match rest with
      | [] => True
      | (w :: _) :: _ => chunk_size self < Z.of_nat (budget g + wt w)
      | [] :: _ => False
      end ∧ greedy rest
  end.

(** [current_tokens] is the token total of [current_chunk]. *)
Definition tok_inv (st : St) : Prop := current_tokens st = tok (current_chunk st).

Definition flushed (cur : list string) : list string :=
  match cur with [] => [] | _ => [join cur] end.

End Chunks.

(** How the chunks of one [chunk_text] call are grouped for coverage: a
    normal chunk is an overlap [ov] carried from earlier sentences followed
    by the [fr]esh sentences it adds; the long-sentence fallback turns one
    sentence into its word-packed pieces. *)
Inductive Group :=
  | GNormal (ov fr : list string)
  | GLong (s : string).

Section Groups.
Variable self : TextChunker.

Definition group_texts (g : Group) : list string :=
  match g with
  | GNormal ov fr => [join (ov ++ fr)]
  | GLong s => split_long_text self s
  end.

Definition fresh_of (g : Group) : list string :=
  match g with
  | GNormal _ fr => fr
  | GLong s => [s]
  end.

(** [seen] are the sentences consumed before the group. *)
Definition gprop (seen : list string) (g : Group) : Prop :=
  match g with
  | GNormal ov fr => fr ≠ [] ∧ ∃ pre, seen = pre ++ ov
  | GLong s => ∃ wgs, split_long_text self s = map join wgs ∧ concat wgs = split s
  end.

Fixpoint good (seen : list string) (gs : list Group) : Prop :=
  match gs with
  | [] => True
  | g :: gs' => gprop seen g ∧ good (seen ++ fresh_of g) gs'
  end.

Definition cov (processed : list string) (st : St) : Prop :=
  ∃ gs ov fr,
    map text (chunks st) = map strip (flat_map group_texts gs) ∧
    current_chunk st = ov ++ fr ∧ (fr = [] → ov = []) ∧
    flat_map fresh_of gs ++ fr = processed ∧
    (∃ pre, flat_map fresh_of gs = pre ++ ov) ∧
    good [] gs.

End Groups.

(** The entries the chunks' metadata should hold: [base_metadata or {}]. *)
Definition base_contents (h : heap) (base : option loc) : gmap string PyVal :=
  match base with
  | Some l => dict_at h l
  | None => ∅
  end.

Section Meta.
Variable h0 : heap.
Variable b : loc.

(** Objects of [h0] are untouched, every chunk has its own new dict, and
    that dict holds the entries of the base dict. *)
Definition meta_inv (st : St) : Prop :=
  dom h0 ⊆ dom (hp st) ∧ (∀ l, l ∈ dom h0 → hp st !! l = h0 !! l) ∧
  NoDup (map metadata (chunks st)) ∧
  Forall (fun c => (metadata c ∉ dom h0) ∧ metadata c ∈ dom (hp st) ∧
                   dict_at (hp st) (metadata c) = dict_at h0 b) (chunks st).

End Meta.
End Spec.

(* ================================================================== *)
(** ** Predicates used by the statements about the other modules *)
(* ================================================================== *)

Module Props.
Import PyStr Heap VectorStore.

(** The non-whitespace characters of a list of characters, in order. *)
Definition nsp (l : list ascii) : list ascii := List.filter (fun c => negb (is_space c)) l.

(** The non-whitespace characters of a string, in order. *)
Definition visible (s : string) : list ascii := nsp (list_ascii_of_string s).

(** [sep.join(xs)] on character lists, as [String.concat] does it. *)
Fixpoint join_l (sep : list ascii) (xs : list (list ascii)) : list ascii :=
  match xs with
  | [] => []
  | [x] => x
  | x :: xs' => x ++ sep ++ join_l sep xs'
  end.

(** No two consecutive spaces. *)
Fixpoint no_double_space (l : list ascii) : Prop :=
  match l with
  | a :: ((b :: _) as r) => ¬ (a = " "%char ∧ b = " "%char) ∧ no_double_space r
  | _ => True
  end.

Section Coll.
Context {Emb : Type}.

(** A record of the document [document_id]: what the filter
    [{"document_id": {"$eq": document_id}}] of vecs selects. *)
Definition of_document (document_id : string) (r : Emb * gmap string PyVal) : Prop :=
  r.2 !! "document_id"%string = Some (VStr document_id).

Global Instance of_document_dec document_id r : Decision (of_document document_id r).
Proof. unfold of_document. apply _. Defined.

End Coll.
End Props.

(* ================================================================== *)
(** ** Sanity checks of the embedding on concrete input *)
(* ================================================================== *)

Example split_ex1 :
  Sentences.split_into_sentences "Hello there. How are you?  fine. Ok"%string
  = ["Hello there."; "How are you?  fine."; "Ok"]%string.
Proof. vm_compute. reflexivity. Qed.

Example split_ex2 : PyStr.split "  a b
  c "%string = ["a"; "b"; "c"]%string.
Proof. vm_compute. reflexivity. Qed.

Example strip_ex : PyStr.strip "  a b  "%string = "a b"%string.
Proof. vm_compute. reflexivity. Qed.

Example run_ex :
  map Chunker.text (snd (Chunker.chunk_text (Enc.chunker 10 5) ∅
     "Cat cat cat cat. Dog dog dog dog dog dog dog dog." 1 None))
  = ["Cat cat cat cat."; "Cat cat cat cat. Dog dog dog dog dog dog dog dog."]%string.
Proof. vm_compute. reflexivity. Qed.

(* ================================================================== *)
(** ** Heap lemmas *)
(* ================================================================== *)

Module HeapFacts.
Import Heap.

Lemma alloc_spec (h : heap) (o : PyObj) :
  let '(h', l) := alloc h o in
  ((l ∉ dom h) ∧ h' !! l = Some o ∧ (∀ l', l' ∈ dom h → h' !! l' = h !! l') ∧
   dom h ⊆ dom h').
Proof.
  unfold alloc. pose proof (is_fresh (dom h)) as Hf.
  set (l := fresh (dom h)) in *.
  split; [done|]. split; [by rewrite lookup_insert_eq|]. split.
  - intros l' Hl'. rewrite lookup_insert_ne; [done|]. intros ->. done.
  - rewrite dom_insert_L. set_solver.
Qed.

Lemma dict_at_insert_eq (h : heap) l d : dict_at (<[l := ODict d]> h) l = d.
Proof. unfold dict_at. by rewrite lookup_insert_eq. Qed.

End HeapFacts.

Module ChunkerFacts.
Import PyStr Heap HeapFacts Chunker Spec.

Section Facts.
Variable self : TextChunker.

Lemma create_chunk_spec (h : heap) t i p b :
  let '(h', c) := create_chunk self h t i p b in
  (text c = strip t ∧ chunk_index c = i ∧ page_number c = p ∧
   token_count c = count_tokens self t ∧
   (metadata c ∉ dom h) ∧ h' !! metadata c = Some (ODict (dict_at h b)) ∧
   (∀ l, l ∈ dom h → h' !! l = h !! l) ∧ dom h ⊆ dom h').
Proof.
  unfold create_chunk.
  pose proof (alloc_spec h (ODict (dict_at h b))) as A1.
  destruct (alloc h (ODict (dict_at h b))) as [h1 cp] eqn:E1.
  destruct A1 as (F1 & L1 & K1 & D1).
  unfold text_chunk_init.
  assert (Hd : dict_at h1 cp = dict_at h b) by (unfold dict_at; by rewrite L1).
  case_bool_decide as Hemp.
  - pose proof (alloc_spec h1 (ODict ∅)) as A2.
    destruct (alloc h1 (ODict ∅)) as [h2 md] eqn:E2.
    destruct A2 as (F2 & L2 & K2 & D2). simpl.
    split_and!; try done.
    + intros Hin. apply F2. set_solver.
    + rewrite L2. by rewrite <- Hd, Hemp.
    + intros l Hl. rewrite K2 by set_solver. by apply K1.
    + set_solver.
  - simpl. rewrite L1. split_and!; done.
Qed.

Section Loop.
Variable page : Z.
Variable base : loc.

Abbreviation made := (Spec.made self).

Lemma emit_view st t :
  map view (chunks (emit self page base st t)) =
    map view (chunks st) ++ made (idx st) [t] ∧
  idx (emit self page base st t) = S (idx st) ∧
  current_chunk (emit self page base st t) = current_chunk st ∧
  current_tokens (emit self page base st t) = current_tokens st.
Proof.
  unfold emit.
  pose proof (create_chunk_spec (hp st) t (idx st) page base) as C.
  destruct (create_chunk self (hp st) t (idx st) page base) as [h' c].
  destruct C as (T & I & _ & K & _). simpl.
  rewrite map_app. simpl. unfold view at 2. by rewrite T, I, K.
Qed.

Lemma emit_all_view ts : ∀ st,
  map view (chunks (emit_all self page base st ts)) =
    map view (chunks st) ++ made (idx st) ts ∧
  idx (emit_all self page base st ts) = (idx st + length ts)%nat ∧
  current_chunk (emit_all self page base st ts) = current_chunk st ∧
  current_tokens (emit_all self page base st ts) = current_tokens st.
Proof.
  induction ts as [|t ts IH]; intros st; simpl.
  - rewrite app_nil_r. split_and!; try done; lia.
  - unfold emit_all in *. simpl.
    destruct (emit_view st t) as (V & I & Cc & Ct).
    destruct (IH (emit self page base st t)) as (V' & I' & Cc' & Ct').
    rewrite V', V, I, <- app_assoc. simpl.
    split_and!; try congruence. lia.
Qed.

Lemma made_indices i ts : map (fun v => v.1.2) (made i ts) = seq i (length ts).
Proof.
  revert i. induction ts as [|t ts IH]; intros i; simpl; [done|]. by rewrite IH.
Qed.

Lemma view_index (cs : list TextChunk) :
  map chunk_index cs = map (fun v => v.1.2) (map view cs).
Proof. rewrite map_map. reflexivity. Qed.

Lemma emit_all_idx_inv st ts :
  idx_inv st → idx_inv (emit_all self page base st ts).
Proof.
  unfold idx_inv. intros H.
  destruct (emit_all_view ts st) as (V & I & _).
  rewrite view_index, V, map_app, made_indices, <- view_index, H, I.
  by rewrite seq_app.
Qed.

Lemma emit_idx_inv st t : idx_inv st → idx_inv (emit self page base st t).
Proof. apply (emit_all_idx_inv st [t]). Qed.

Lemma step_idx_inv st s : idx_inv st → idx_inv (step self page base st s).
Proof.
  intros H. unfold step.
  destruct (Z.of_nat (count_tokens self s) >? chunk_size self).
  - apply emit_all_idx_inv. destruct (current_chunk st) as [|x xs].
    + done.
    + pose proof (emit_idx_inv st (join (x :: xs)) H) as H'. exact H'.
  - destruct (Z.of_nat (current_tokens st + count_tokens self s) >? chunk_size self).
    + destruct (current_chunk st) as [|x xs]; [exact H|].
      destruct (get_overlap self (x :: xs) (current_tokens st)) as [ov ot].
      exact (emit_idx_inv st _ H).
    + exact H.
Qed.

Lemma run_idx_inv h sentences : idx_inv (run self page base h sentences).
Proof.
  unfold run.
  assert (Hf : ∀ l st, idx_inv st → idx_inv (fold_left (step self page base) l st)).
  { induction l as [|s l IH]; intros st Hst; simpl; [done|].
    apply IH, step_idx_inv, Hst. }
  pose proof (Hf sentences (mkSt [] [] 0 0 h) eq_refl) as H.
  destruct (current_chunk (fold_left _ sentences _)); [done|].
  by apply emit_idx_inv.
Qed.

End Loop.
End Facts.
End ChunkerFacts.

Module SplitFacts.
Import PyStr Heap Chunker ChunkerFacts Spec.

Section Facts.
Variable self : TextChunker.

Abbreviation tok := (Spec.tok self).
Abbreviation wt := (Spec.wt self).
Abbreviation budget := (Spec.budget self).
Abbreviation fits := (Spec.fits self).
Abbreviation greedy := (Spec.greedy self).

Lemma tok_app l1 l2 : tok (l1 ++ l2) = (tok l1 + tok l2)%nat.
Proof. induction l1; simpl; lia. Qed.

Lemma tok_rev l : tok (rev l) = tok l.
Proof. induction l; simpl; [done|]. rewrite tok_app. simpl. lia. Qed.

Lemma tok_take_le n l : (tok (take n l) <= tok l)%nat.
Proof.
  revert n. induction l as [|s l IH]; intros [|n]; simpl; try lia.
  specialize (IH n). lia.
Qed.

Lemma overlap_go_spec rs : ∀ acc ot,
  ∃ k, overlap_go self rs acc ot = (rev (take k rs) ++ acc, (ot + tok (take k rs))%nat) ∧
    (k <= length rs)%nat ∧
    (k = 0%nat ∨ Z.of_nat (ot + tok (take k rs)) <= chunk_overlap self) ∧
    ((k < length rs)%nat → chunk_overlap self < Z.of_nat (ot + tok (take (S k) rs))).
Proof.
  induction rs as [|s rs IH]; intros acc ot; simpl.
  - exists 0%nat. simpl. split_and!; try done; try lia. rewrite Nat.add_0_r. done.
  - destruct (Z.of_nat (ot + count_tokens self s) <=? chunk_overlap self) eqn:E.
    + apply Z.leb_le in E.
      destruct (IH (s :: acc) (ot + count_tokens self s)%nat) as (k & Hk & Hl & Ha & Hb).
      exists (S k). simpl. rewrite Hk, <- app_assoc. simpl.
      split_and!.
      * f_equal. lia.
      * lia.
      * right. destruct Ha as [-> | Ha]; simpl in *; lia.
      * intros Hlt. specialize (Hb ltac:(lia)). simpl in Hb. lia.
    + apply Z.leb_gt in E. exists 0%nat. simpl.
      split_and!; try done; try lia; try (rewrite Nat.add_0_r; done).
Qed.

(** [_get_overlap] keeps a suffix of the sentences, of total at most
    [chunk_overlap] unless empty, and no longer suffix qualifies. *)
Lemma get_overlap_spec cur tt :
  let '(ov, ot) := get_overlap self cur tt in
  ot = tok ov ∧ (∃ pre, cur = pre ++ ov) ∧
  (ov = [] ∨ Z.of_nat (tok ov) <= chunk_overlap self) ∧
  (∀ pre' ov', cur = pre' ++ ov' →
     (ov' = [] ∨ Z.of_nat (tok ov') <= chunk_overlap self) →
     (length ov' <= length ov)%nat).
Proof.
  unfold get_overlap. destruct cur as [|x xs] eqn:Ecur.
  - split_and!; try done.
    + by exists [].
    + by left.
    + intros pre' ov' H _. destruct pre', ov'; simpl in *; try discriminate; lia.
  - rewrite <- Ecur.
    destruct (overlap_go_spec (rev cur) [] 0) as (k & Hk & Hl & Ha & Hb).
    rewrite Hk. rewrite app_nil_r. simpl.
    split_and!.
    + by rewrite tok_rev.
    + exists (rev (drop k (rev cur))).
      rewrite <- rev_app_distr, take_drop, rev_involutive. done.
    + destruct Ha as [-> | Ha]; [by left|]. right. by rewrite tok_rev.
    + intros pre' ov' Hcur Hov'.
      rewrite length_rev, length_take.
      destruct (decide (length ov' <= k)%nat) as [?|Hgt]; [lia|]. exfalso.
      assert (Hlt : (k < length (rev cur))%nat).
      { rewrite length_rev, Hcur, length_app. lia. }
      specialize (Hb Hlt).
      assert (Htk : take (S k) (rev cur) = take (S k) (rev ov')).
      { rewrite Hcur, rev_app_distr, take_app_le; [done|]. rewrite length_rev. lia. }
      rewrite Htk in Hb.
      pose proof (tok_take_le (S k) (rev ov')) as Hle. rewrite tok_rev in Hle.
      destruct Hov' as [-> | Hov']; [simpl in Hgt; lia|]. lia.
Qed.

Lemma budget_app g1 g2 : budget (g1 ++ g2) = (budget g1 + budget g2)%nat.
Proof. induction g1; simpl; lia. Qed.

Lemma split_long_go_spec ws : ∀ chunks cur ct,
  ct = budget cur → (cur = [] ∨ fits cur) →
  ∃ gs, split_long_go self ws chunks cur ct = chunks ++ map join gs ∧
    concat gs = cur ++ ws ∧ greedy gs ∧
    (cur ≠ [] → ∃ g gs', gs = (cur ++ g) :: gs').
Proof.
  induction ws as [|w ws IH]; intros chunks cur ct Hct Hfit; simpl.
  - destruct cur as [|x xs].
    + exists []. simpl. rewrite app_nil_r. split_and!; done.
    + exists [x :: xs]. simpl. rewrite !app_nil_r.
      split_and!; try done.
      * destruct Hfit as [Hf|Hf]; [discriminate|done].
      * intros _. exists [], []. by rewrite app_nil_r.
  - fold (wt w).
    destruct (Z.of_nat (ct + wt w) >? chunk_size self) eqn:E.
    + apply Z.gtb_lt in E.
      destruct (IH (match cur with [] => chunks | _ => chunks ++ [join cur] end)
                  [w] (wt w)) as (gs & Hr & Hc & Hg & Hh).
      { simpl. lia. }
      { right. left. done. }
      destruct (Hh ltac:(discriminate)) as (g & gs' & ->).
      destruct cur as [|x xs].
      * exists ((w :: g) :: gs'). split_and!; [exact Hr | exact Hc | exact Hg | by intros ?].
      * exists ((x :: xs) :: (w :: g) :: gs'). rewrite Hr.
        split_and!.
        -- simpl. by rewrite <- app_assoc.
        -- simpl in *. by rewrite Hc.
        -- split; [discriminate|]. split.
           { destruct Hfit as [Hf|Hf]; [discriminate|done]. }
           split; [simpl in Hct |- *; lia | exact Hg].
        -- intros _. exists [], ((w :: g) :: gs'). by rewrite app_nil_r.
    + rewrite Z.gtb_ltb in E. apply Z.ltb_ge in E.
      destruct (IH chunks (cur ++ [w]) (ct + wt w)%nat) as (gs & Hr & Hc & Hg & Hh).
      { rewrite budget_app. simpl. lia. }
      { right. right. rewrite budget_app. simpl. lia. }
      destruct (Hh ltac:(destruct cur; discriminate)) as (g & gs' & Hgs).
      exists gs. split_and!; try done.
      * rewrite Hc, <- app_assoc. done.
      * intros _. exists ([w] ++ g), gs'. by rewrite Hgs, <- app_assoc.
Qed.

Lemma split_long_text_spec s :
  ∃ gs, split_long_text self s = map join gs ∧ concat gs = split s ∧ greedy gs.
Proof.
  destruct (split_long_go_spec (split s) [] [] 0 eq_refl (or_introl eq_refl))
    as (gs & Hr & Hc & Hg & _).
  exists gs. unfold split_long_text. rewrite Hr. split_and!; done.
Qed.

Lemma split_go_nonempty l : ∀ cur,
  cur ≠ [] ∨ Exists (fun c => is_space c = false) l → split_go cur l ≠ [].
Proof.
  induction l as [|c r IH]; intros cur H; simpl.
  - destruct H as [H|H]; [destruct cur; done|inversion H].
  - destruct (is_space c) eqn:E.
    + destruct cur as [|x xs]; [|discriminate].
      apply IH. destruct H as [H|H]; [done|].
      inversion H; subst; [congruence|]. by right.
    + apply IH. left. discriminate.
Qed.

Lemma split_nonempty s :
  Exists (fun c => is_space c = false) (list_ascii_of_string s) → split s ≠ [].
Proof.
  intros H. unfold split.
  pose proof (split_go_nonempty _ [] (or_intror H)) as Hn.
  destruct (split_go [] (list_ascii_of_string s)); [done|discriminate].
Qed.

End Facts.
End SplitFacts.

Module StepFacts.
Import PyStr Heap Chunker ChunkerFacts SplitFacts Spec.

Section Facts.
Variable self : TextChunker.
Variable page : Z.
Variable base : loc.

Abbreviation step := (step self page base).
Abbreviation tok := (tok self).

Abbreviation tok_inv := (Spec.tok_inv self).

Lemma step_long st s :
  tok_inv st → chunk_size self < Z.of_nat (count_tokens self s) →
  let st' := step st s in
  map view (chunks st') =
    map view (chunks st) ++
      made self (idx st) (flushed (current_chunk st) ++ split_long_text self s) ∧
  idx st' = (idx st + length (flushed (current_chunk st) ++ split_long_text self s))%nat ∧
  current_chunk st' = [] ∧ current_tokens st' = 0%nat.
Proof.
  intros Hinv Hlong. simpl. unfold step.
  assert (E : (Z.of_nat (count_tokens self s) >? chunk_size self) = true)
    by (apply Z.gtb_lt; lia).
  rewrite E.
  destruct (current_chunk st) as [|x xs] eqn:Ecur.
  - destruct (emit_all_view self page base (split_long_text self s) st)
      as (V & I & Cc & Ct).
    unfold tok_inv in Hinv. rewrite Ecur in Hinv.
    simpl. rewrite V, I, Cc, Ct, Ecur. split_and!; done.
  - set (st1 := emit self page base st (join (x :: xs))).
    destruct (emit_view self page base st (join (x :: xs))) as (V1 & I1 & _ & _).
    fold st1 in V1, I1.
    destruct (emit_all_view self page base (split_long_text self s)
                (mkSt (chunks st1) [] 0 (idx st1) (hp st1))) as (V & I & Cc & Ct).
    simpl in V, I, Cc, Ct. rewrite V, I, Cc, Ct, V1, I1.
    split_and!; try done.
    + rewrite <- app_assoc. done.
    + simpl. lia.
Qed.

Lemma step_overflow st s :
  tok_inv st →
  Z.of_nat (count_tokens self s) <= chunk_size self →
  chunk_size self < Z.of_nat (current_tokens st + count_tokens self s) →
  current_chunk st ≠ [] →
  let st' := step st s in
  let '(ov, ot) := get_overlap self (current_chunk st) (current_tokens st) in
  current_chunk st' = ov ++ [s] ∧ current_tokens st' = (ot + count_tokens self s)%nat ∧
  map view (chunks st') = map view (chunks st) ++ made self (idx st) [join (current_chunk st)] ∧
  idx st' = S (idx st).
Proof.
  intros Hinv Hshort Hover Hne. simpl. unfold step.
  assert (E : (Z.of_nat (count_tokens self s) >? chunk_size self) = false).
  { rewrite Z.gtb_ltb. apply Z.ltb_ge. lia. }
  assert (E2 : (Z.of_nat (current_tokens st + count_tokens self s) >? chunk_size self) = true)
    by (apply Z.gtb_lt; lia).
  rewrite E, E2.
  destruct (current_chunk st) as [|x xs] eqn:Ecur; [done|].
  destruct (emit_view self page base st (join (x :: xs))) as (V1 & I1 & _ & _).
  destruct (get_overlap self (x :: xs) (current_tokens st)) as [ov ot].
  simpl. split_and!; done.
Qed.

Lemma step_tok_inv st s : tok_inv st → tok_inv (step st s).
Proof.
  intros Hinv.
  destruct (Z.of_nat (count_tokens self s) >? chunk_size self) eqn:E.
  - apply Z.gtb_lt in E.
    destruct (step_long st s Hinv E) as (_ & _ & Cc & Ct).
    unfold tok_inv. rewrite Cc, Ct. done.
  - rewrite Z.gtb_ltb in E. apply Z.ltb_ge in E.
    destruct (Z.of_nat (current_tokens st + count_tokens self s) >? chunk_size self) eqn:E2.
    + apply Z.gtb_lt in E2.
      destruct (current_chunk st) as [|x xs] eqn:Ecur.
      * unfold tok_inv in Hinv. rewrite Ecur in Hinv. simpl in Hinv.
        rewrite Hinv in E2. lia.
      * pose proof (step_overflow st s Hinv E E2 ltac:(rewrite Ecur; discriminate)) as H.
        simpl in H.
        pose proof (get_overlap_spec self (current_chunk st) (current_tokens st)) as G.
        destruct (get_overlap self (current_chunk st) (current_tokens st)) as [ov ot].
        destruct H as (Cc & Ct & _). destruct G as (Hot & _).
        unfold tok_inv. rewrite Cc, Ct, tok_app, Hot. simpl. lia.
    + rewrite Z.gtb_ltb in E2. apply Z.ltb_ge in E2.
      unfold step, tok_inv in *.
      assert (E' : (Z.of_nat (count_tokens self s) >? chunk_size self) = false)
        by (rewrite Z.gtb_ltb; apply Z.ltb_ge; lia).
      assert (E2' : (Z.of_nat (current_tokens st + count_tokens self s) >? chunk_size self) = false)
        by (rewrite Z.gtb_ltb; apply Z.ltb_ge; lia).
      rewrite E', E2'. simpl. rewrite tok_app, Hinv. simpl. lia.
Qed.

Lemma fold_tok_inv l : ∀ st, tok_inv st → tok_inv (fold_left step l st).
Proof.
  induction l as [|s l IH]; intros st H; simpl; [done|]. by apply IH, step_tok_inv.
Qed.

Lemma init_tok_inv h : tok_inv (mkSt [] [] 0 0 h).
Proof. done. Qed.

End Facts.
End StepFacts.

Module Coverage.
Import PyStr Heap Chunker ChunkerFacts SplitFacts StepFacts Spec.

Section Facts.
Variable self : TextChunker.
Variable page : Z.
Variable base : loc.

Abbreviation step := (step self page base).

Abbreviation group_texts := (Spec.group_texts self).
Abbreviation gprop := (Spec.gprop self).
Abbreviation good := (Spec.good self).
Abbreviation cov := (Spec.cov self).

Lemma good_snoc gs : ∀ seen g,
  good seen gs → gprop (seen ++ flat_map fresh_of gs) g → good seen (gs ++ [g]).
Proof.
  induction gs as [|g0 gs IH]; intros seen g Hg Hp; simpl in *.
  - rewrite app_nil_r in Hp. split; done.
  - destruct Hg as [H0 Hg]. split; [done|]. apply IH; [done|].
    by rewrite <- app_assoc.
Qed.

Lemma made_texts i ts : map (fun v => v.1.1) (made self i ts) = map strip ts.
Proof. revert i. induction ts as [|t ts IH]; intros i; simpl; [done|]. by rewrite IH. Qed.

Lemma texts_of (cs : list TextChunk) : map text cs = map (fun v => v.1.1) (map view cs).
Proof. rewrite map_map. reflexivity. Qed.

Lemma step_fit st s :
  tok_inv self st →
  Z.of_nat (count_tokens self s) <= chunk_size self →
  Z.of_nat (current_tokens st + count_tokens self s) <= chunk_size self →
  chunks (step st s) = chunks st ∧ current_chunk (step st s) = current_chunk st ++ [s].
Proof.
  intros _ E E2. unfold Chunker.step.
  assert (E' : (Z.of_nat (count_tokens self s) >? chunk_size self) = false)
    by (rewrite Z.gtb_ltb; apply Z.ltb_ge; lia).
  assert (E2' : (Z.of_nat (current_tokens st + count_tokens self s) >? chunk_size self) = false)
    by (rewrite Z.gtb_ltb; apply Z.ltb_ge; lia).
  rewrite E', E2'. done.
Qed.

Lemma step_cov processed st s :
  tok_inv self st → cov processed st → cov (processed ++ [s]) (step st s).
Proof.
  intros Hinv (gs & ov & fr & Ht & Hc & Hfr & Hp & Hsuf & Hg).
  destruct (Z.of_nat (count_tokens self s) >? chunk_size self) eqn:E.
  - (* long-sentence fallback *)
    apply Z.gtb_lt in E.
    destruct (step_long self page base st s Hinv E) as (V & _ & Cc & _).
    destruct (split_long_text_spec self s) as (wgs & Hw & Hwc & _).
    assert (Hgl : ∀ seen, gprop seen (GLong s)) by (intros; exists wgs; done).
    destruct (current_chunk st) as [|x xs] eqn:Ecur.
    + assert (fr = []) as -> by (destruct ov, fr; simpl in Hc; congruence).
      rewrite Hfr in Hsuf by done.
      exists (gs ++ [GLong s]), [], []. split_and!; try done.
      * rewrite texts_of, V, map_app, made_texts, <- texts_of, Ht.
        rewrite flat_map_app. simpl. rewrite app_nil_r, map_app. done.
      * rewrite flat_map_app. simpl. rewrite <- Hp. rewrite !app_nil_r. done.
      * exists (flat_map fresh_of (gs ++ [GLong s])). by rewrite app_nil_r.
      * by apply good_snoc.
    + assert (Hne : fr ≠ []) by (intros ->; rewrite Hfr in Hc by done; discriminate).
      exists (gs ++ [GNormal ov fr; GLong s]), [], []. split_and!; try done.
      * rewrite texts_of, V, map_app, made_texts, <- texts_of, Ht.
        rewrite flat_map_app. simpl. rewrite app_nil_r, Hc, !map_app. done.
      * rewrite flat_map_app. simpl. rewrite <- Hp, app_nil_r, <- app_assoc. done.
      * exists (flat_map fresh_of (gs ++ [GNormal ov fr; GLong s])). by rewrite app_nil_r.
      * change [GNormal ov fr; GLong s] with ([GNormal ov fr] ++ [GLong s]).
        rewrite app_assoc. apply good_snoc; [apply good_snoc|]; try done.
  - rewrite Z.gtb_ltb in E. apply Z.ltb_ge in E.
    destruct (Z.of_nat (current_tokens st + count_tokens self s) >? chunk_size self) eqn:E2.
    + (* flush on overflow, overlap seeded *)
      apply Z.gtb_lt in E2.
      assert (Hcur : current_chunk st ≠ []).
      { intros Ecur. unfold tok_inv in Hinv. rewrite Ecur in Hinv. simpl in Hinv. lia. }
      pose proof (step_overflow self page base st s Hinv E E2 Hcur) as H. simpl in H.
      pose proof (get_overlap_spec self (current_chunk st) (current_tokens st)) as G.
      destruct (get_overlap self (current_chunk st) (current_tokens st)) as [ov2 ot].
      destruct H as (Cc & _ & V & _). destruct G as (_ & [p2 Hp2] & _).
      assert (Hne : fr ≠ []) by (intros ->; rewrite Hfr in Hc by done; done).
      exists (gs ++ [GNormal ov fr]), ov2, [s]. split_and!; try done.
      * rewrite texts_of, V, map_app, <- texts_of, Ht. simpl.
        rewrite flat_map_app. simpl. rewrite Hc, map_app. done.
      * rewrite flat_map_app. simpl. rewrite app_nil_r, <- Hp, <- app_assoc. done.
      * destruct Hsuf as [p1 Hp1]. exists (p1 ++ p2).
        rewrite flat_map_app. simpl. rewrite app_nil_r, Hp1, <- app_assoc.
        rewrite <- Hc, Hp2, app_assoc. done.
      * apply good_snoc; [done|]. simpl. split; [done|].
        destruct Hsuf as [pre ->]. by exists pre.
    + (* the sentence joins the buffer *)
      rewrite Z.gtb_ltb in E2. apply Z.ltb_ge in E2.
      destruct (step_fit st s Hinv E E2) as (Ch & Cc).
      exists gs, ov, (fr ++ [s]). split_and!; try done.
      * by rewrite Ch.
      * by rewrite Cc, Hc, app_assoc.
      * intros Hx. destruct fr; discriminate.
      * by rewrite app_assoc, Hp.
Qed.

Lemma fold_cov l : ∀ processed st,
  tok_inv self st → cov processed st →
  cov (processed ++ l) (fold_left step l st).
Proof.
  induction l as [|s l IH]; intros processed st Hi Hc; simpl.
  - by rewrite app_nil_r.
  - replace (processed ++ s :: l) with ((processed ++ [s]) ++ l) by (rewrite <- app_assoc; done). apply IH.
    + by apply step_tok_inv.
    + by apply step_cov.
Qed.

Lemma run_cov h sentences :
  ∃ gs,
    map text (chunks (run self page base h sentences)) =
      map strip (flat_map group_texts gs) ∧
    flat_map fresh_of gs = sentences ∧ good [] gs.
Proof.
  assert (H0 : cov [] (mkSt [] [] 0 0 h)).
  { exists [], [], []. split_and!; try done. by exists []. }
  destruct (fold_cov sentences [] _ (init_tok_inv self h) H0)
    as (gs & ov & fr & Ht & Hc & Hfr & Hp & Hsuf & Hg).
  unfold run. simpl in Hp.
  destruct (current_chunk (fold_left step sentences (mkSt [] [] 0 0 h))) as [|x xs] eqn:Ecur.
  - assert (fr = []) as -> by (destruct ov, fr; simpl in Hc; congruence).
    exists gs. rewrite app_nil_r in Hp. split_and!; done.
  - assert (Hne : fr ≠ []) by (intros ->; rewrite Hfr in Hc by done; discriminate).
    exists (gs ++ [GNormal ov fr]). split_and!.
    + destruct (emit_view self page base
                  (fold_left step sentences (mkSt [] [] 0 0 h)) (join (x :: xs)))
        as (V & _).
      rewrite texts_of, V, map_app, <- texts_of, Ht. simpl.
      rewrite flat_map_app. simpl. try rewrite Ecur in Hc. rewrite Hc, map_app. done.
    + rewrite flat_map_app. simpl. rewrite app_nil_r. done.
    + apply good_snoc; [done|]. simpl. split; [done|].
      destruct Hsuf as [pre ->]. by exists pre.
Qed.

End Facts.
End Coverage.

Module MetaFacts.
Import PyStr Heap HeapFacts Chunker ChunkerFacts Spec.

Section Facts.
Variable self : TextChunker.
Variable page : Z.
Variable h0 : heap.
Variable b : loc.
Hypothesis Hb : b ∈ dom h0.

Abbreviation step := (step self page b).

Abbreviation meta_inv := (Spec.meta_inv h0 b).

Lemma emit_meta st t : meta_inv st → meta_inv (emit self page b st t).
Proof.
  intros (D & K & N & F). unfold emit.
  pose proof (create_chunk_spec self (hp st) t (idx st) page b) as C.
  destruct (create_chunk self (hp st) t (idx st) page b) as [h' c].
  destruct C as (_ & _ & _ & _ & Fc & Lc & Kc & Dc). unfold meta_inv. simpl.
  assert (Hbd : dict_at (hp st) b = dict_at h0 b) by (unfold dict_at; by rewrite K).
  split_and!.
  - set_solver.
  - intros l Hl. rewrite Kc by set_solver. by apply K.
  - rewrite map_app. apply NoDup_app. split_and!; [done| |by apply NoDup_singleton].
    intros x Hx Hy. apply list_elem_of_singleton in Hy. subst x.
    apply Fc. apply list_elem_of_In in Hx. apply in_map_iff in Hx.
    destruct Hx as (c' & Hc' & Hin). rewrite Forall_forall in F.
    destruct (F c' ltac:(by apply list_elem_of_In)) as (_ & Hd & _). by rewrite <- Hc'.
  - apply Forall_app. split.
    + eapply Forall_impl; [exact F|]. intros c' (H1 & H2 & H3).
      split_and!; [done| |].
      * apply elem_of_dom. rewrite Kc by done. by apply elem_of_dom.
      * unfold dict_at in *. rewrite Kc by done. done.
    + apply Forall_singleton. split_and!.
      * intros Hin. apply Fc. set_solver.
      * apply elem_of_dom. by rewrite Lc.
      * unfold dict_at at 1. rewrite Lc. done.
Qed.

Lemma emit_all_meta ts : ∀ st, meta_inv st → meta_inv (emit_all self page b st ts).
Proof.
  induction ts as [|t ts IH]; intros st H; [done|]. unfold emit_all. simpl.
  apply IH, emit_meta, H.
Qed.

Lemma step_meta st s : meta_inv st → meta_inv (step st s).
Proof.
  intros H. unfold Chunker.step.
  destruct (Z.of_nat (count_tokens self s) >? chunk_size self).
  - apply emit_all_meta. destruct (current_chunk st) as [|x xs]; [done|].
    pose proof (emit_meta st (join (x :: xs)) H) as H'. exact H'.
  - destruct (Z.of_nat (current_tokens st + count_tokens self s) >? chunk_size self).
    + destruct (current_chunk st) as [|x xs]; [exact H|].
      destruct (get_overlap self (x :: xs) (current_tokens st)) as [ov ot].
      exact (emit_meta st _ H).
    + exact H.
Qed.

Lemma run_meta sentences : meta_inv (run self page b h0 sentences).
Proof.
  assert (Hf : ∀ l st, meta_inv st → meta_inv (fold_left step l st)).
  { induction l as [|s l IH]; intros st Hst; simpl; [done|].
    apply IH, step_meta, Hst. }
  assert (H0 : meta_inv (mkSt [] [] 0 0 h0)).
  { split_and!; simpl; try done. constructor. }
  unfold run. pose proof (Hf sentences _ H0) as H.
  destruct (current_chunk (fold_left step sentences _)); [done|].
  by apply emit_meta.
Qed.

End Facts.

Lemma base_or_empty_spec (h : heap) base :
  let '(h1, b) := base_or_empty h base in
  (b ∈ dom h1 ∧ dom h ⊆ dom h1 ∧ (∀ l, l ∈ dom h → h1 !! l = h !! l) ∧
   dict_at h1 b = base_contents h base).
Proof.
  unfold base_or_empty.
  assert (Halloc : let '(h1, b) := alloc h (ODict ∅) in
    (b ∈ dom h1 ∧ dom h ⊆ dom h1 ∧ (∀ l, l ∈ dom h → h1 !! l = h !! l) ∧
     dict_at h1 b = ∅)).
  { pose proof (alloc_spec h (ODict ∅)) as A.
    destruct (alloc h (ODict ∅)) as [h1 l].
    destruct A as (F & L & K & D). split_and!; try done.
    - apply elem_of_dom. by rewrite L.
    - unfold dict_at. by rewrite L. }
  destruct base as [l|]; cbn [base_contents].
  - case_bool_decide as Hd.
    + destruct (alloc h (ODict ∅)) as [h1 l']. destruct Halloc as (? & ? & ? & ->).
      done.
    + split_and!; try done.
      apply elem_of_dom. unfold dict_at in Hd.
      destruct (h !! l); [done|]. by destruct Hd.
  - exact Halloc.
Qed.

Lemma NoDup_map_lookup {A B} (f : A → B) (l : list A) i j x y :
  NoDup (map f l) → l !! i = Some x → l !! j = Some y → i ≠ j → f x ≠ f y.
Proof.
  revert i j. induction l as [|a l IH]; intros i j Hn Hi Hj Hij; [done|].
  simpl in Hn. apply NoDup_cons in Hn as [Hna Hn].
  destruct i as [|i], j as [|j]; simpl in *.
  - done.
  - injection Hi as <-. intros Heq. apply Hna.
    apply list_elem_of_In, in_map_iff. exists y. split; [done|].
    apply list_elem_of_In. by eapply list_elem_of_lookup_2.
  - injection Hj as <-. intros Heq. apply Hna.
    apply list_elem_of_In, in_map_iff. exists x. split; [done|].
    apply list_elem_of_In. by eapply list_elem_of_lookup_2.
  - apply (IH i j); auto.
Qed.

Lemma dict_at_set_ne (h : heap) l1 l2 k v :
  l1 ≠ l2 → dict_at (dict_set h l1 k v) l2 = dict_at h l2.
Proof. intros Hne. unfold dict_at, dict_set. by rewrite lookup_insert_ne. Qed.

End MetaFacts.

(* ================================================================== *)
(** ** The claims *)
(* ================================================================== *)

Module Claims.
Import PyStr Sentences Heap HeapFacts Chunker ChunkerFacts SplitFacts StepFacts
  Coverage MetaFacts Pipeline Spec.

Lemma lstrip_all_space l :
  Forall (fun c => is_space c = true) l → lstrip_l l = [].
Proof. induction 1 as [|c l Hc _ IH]; simpl; [done|]. by rewrite Hc. Qed.

Lemma strip_all_space t :
  Forall (fun c => is_space c = true) (list_ascii_of_string t) → strip t = ""%string.
Proof.
  intros H. unfold strip, strip_l. rewrite (lstrip_all_space _ H). done.
Qed.

(** Claim C1 (code_bug).  The token bound fails for a normal chunk: the
    chunker flushes [Cat cat cat cat.] when [Dog dog ... dog.] would not
    fit, seeds the new buffer with that sentence again as overlap (4 tokens
    within [chunk_overlap] = 9) and appends the 8-token sentence without a
    second check, giving a chunk of 12 tokens for [chunk_size] = 10.  No
    sentence exceeds [chunk_size], so the fallback path is never taken. *)
Lemma C1_overlap_overflow :
  let self := Enc.chunker 10 9 in
  let txt := "Cat cat cat cat. Dog dog dog dog dog dog dog dog."%string in
  let cs := snd (chunk_text self ∅ txt 1 None) in
  forallb (fun s => Z.of_nat (count_tokens self s) <=? chunk_size self)
    (split_into_sentences txt) = true ∧
  map text cs = ["Cat cat cat cat."; "Cat cat cat cat. Dog dog dog dog dog dog dog dog."]%string ∧
  map token_count cs = [4; 12]%nat ∧
  chunk_size self < Z.of_nat 12.
Proof. vm_compute. split_and!; try reflexivity. Qed.

(** Claim C2 (counterexample).  Construction succeeds with [chunk_size] = 0
    and with [chunk_overlap] = [chunk_size]: no value is rejected. *)
Lemma C2_init_accepts_malformed :
  init Enc.get_encoding 0 5 "cl100k_base" = Some (Enc.chunker 0 5) ∧
  init Enc.get_encoding 10 10 "cl100k_base" = Some (Enc.chunker 10 10).
Proof. split; reflexivity. Qed.

(** Claim C3.  When a sentence (with a non-space character, as every
    sentence of the splitter has) exceeds [chunk_size] at any point of the
    loop: the buffer, if non-empty, is emitted as one chunk of exactly its
    sentences; the sentence's words ([str.split]) are cut into one or more
    non-empty groups, packed greedily (each group is a single word or fits
    the word budget [count(word + " ")] of [chunk_size], and the next
    group's first word would not have fitted), each group becoming one
    chunk, with consecutive indices; the buffer is then empty. *)
Theorem C3_long_sentence_fallback self page base h (seen : list string) s :
  chunk_size self < Z.of_nat (count_tokens self s) →
  Exists (fun c => is_space c = false) (list_ascii_of_string s) →
  let st := fold_left (step self page base) seen (mkSt [] [] 0 0 h) in
  let st' := step self page base st s in
  ∃ gs,
    split_long_text self s = map join gs ∧ concat gs = split s ∧ gs ≠ [] ∧
    greedy self gs ∧
    map view (chunks st') =
      map view (chunks st) ++
        made self (idx st) (flushed (current_chunk st) ++ map join gs) ∧
    idx st' = (idx st + length (flushed (current_chunk st) ++ map join gs))%nat ∧
    current_chunk st' = [] ∧ current_tokens st' = 0%nat.
Proof.
  intros Hlong Hnb st st'.
  assert (Hinv : tok_inv self st) by apply fold_tok_inv, init_tok_inv.
  destruct (step_long self page base st s Hinv Hlong) as (V & I & Cc & Ct).
  destruct (split_long_text_spec self s) as (gs & Hw & Hc & Hg).
  exists gs. rewrite <- Hw. split_and!; try done.
  intros ->. simpl in Hc. by apply (split_nonempty s Hnb).
Qed.

Lemma C3_witness :
  let self := Enc.chunker 2 0 in
  let s := "Alpha beta gamma."%string in
  let st := fold_left (step self 1 0%nat) [] (mkSt [] [] 0 0 ∅) in
  let st' := step self 1 0%nat st s in
  chunk_size self < Z.of_nat (count_tokens self s) ∧
  ∃ gs,
    split_long_text self s = map join gs ∧ concat gs = split s ∧ gs ≠ [] ∧
    greedy self gs ∧
    map view (chunks st') =
      map view (chunks st) ++
        made self (idx st) (flushed (current_chunk st) ++ map join gs) ∧
    idx st' = (idx st + length (flushed (current_chunk st) ++ map join gs))%nat ∧
    current_chunk st' = [] ∧ current_tokens st' = 0%nat.
Proof.
  split; [vm_compute; reflexivity|].
  apply (C3_long_sentence_fallback (Enc.chunker 2 0) 1 0%nat ∅ [] "Alpha beta gamma."%string).
  - vm_compute. reflexivity.
  - apply Exists_cons_hd. reflexivity.
Defined.

(** Claim C4.  When, at any point of the loop, a sentence that fits
    [chunk_size] on its own would overflow a non-empty buffer, the buffer is
    emitted as a chunk and the new buffer is [ov ++ [sentence]], where [ov]
    is a suffix of the emitted sentences, in their order, of token total at
    most [chunk_overlap] (or empty), and no longer suffix has this property
    (longest contiguous trailing run).  [ov] may be empty. *)
Theorem C4_overlap_greedy_suffix self page base h (seen : list string) s :
  let st := fold_left (step self page base) seen (mkSt [] [] 0 0 h) in
  Z.of_nat (count_tokens self s) <= chunk_size self →
  chunk_size self < Z.of_nat (current_tokens st + count_tokens self s) →
  current_chunk st ≠ [] →
  let st' := step self page base st s in
  ∃ ov,
    current_chunk st' = ov ++ [s] ∧
    current_tokens st' = (tok self ov + count_tokens self s)%nat ∧
    map view (chunks st') =
      map view (chunks st) ++ made self (idx st) [join (current_chunk st)] ∧
    (∃ pre, current_chunk st = pre ++ ov) ∧
    (ov = [] ∨ Z.of_nat (tok self ov) <= chunk_overlap self) ∧
    (∀ pre' ov', current_chunk st = pre' ++ ov' →
       (ov' = [] ∨ Z.of_nat (tok self ov') <= chunk_overlap self) →
       (length ov' <= length ov)%nat).
Proof.
  intros st Hshort Hover Hne st'.
  assert (Hinv : tok_inv self st) by apply fold_tok_inv, init_tok_inv.
  pose proof (step_overflow self page base st s Hinv Hshort Hover Hne) as H.
  pose proof (get_overlap_spec self (current_chunk st) (current_tokens st)) as G.
  simpl in H. fold st' in H.
  destruct (get_overlap self (current_chunk st) (current_tokens st)) as [ov ot].
  destruct H as (Cc & Ct & V & _). destruct G as (Hot & Hsuf & Hle & Hmax).
  exists ov. rewrite Ct, Hot. split_and!; done.
Qed.

Lemma C4_witness :
  let self := Enc.chunker 10 5 in
  let s := "Dog dog dog dog dog dog dog dog."%string in
  let st := fold_left (step self 1 0%nat) ["Cat cat cat cat."%string] (mkSt [] [] 0 0 ∅) in
  let st' := step self 1 0%nat st s in
  (Z.of_nat (count_tokens self s) <= chunk_size self ∧
   chunk_size self < Z.of_nat (current_tokens st + count_tokens self s) ∧
   current_chunk st ≠ []) ∧
  ∃ ov,
    current_chunk st' = ov ++ [s] ∧
    current_tokens st' = (tok self ov + count_tokens self s)%nat ∧
    map view (chunks st') =
      map view (chunks st) ++ made self (idx st) [join (current_chunk st)] ∧
    (∃ pre, current_chunk st = pre ++ ov) ∧
    (ov = [] ∨ Z.of_nat (tok self ov) <= chunk_overlap self) ∧
    (∀ pre' ov', current_chunk st = pre' ++ ov' →
       (ov' = [] ∨ Z.of_nat (tok self ov') <= chunk_overlap self) →
       (length ov' <= length ov)%nat).
Proof.
  split.
  - vm_compute. split_and!; try discriminate; reflexivity.
  - apply (C4_overlap_greedy_suffix (Enc.chunker 10 5) 1 0%nat ∅
             ["Cat cat cat cat."%string] "Dog dog dog dog dog dog dog dog."%string);
      vm_compute; try discriminate; reflexivity.
Defined.

(** Claim C5 (counterexample).  Two one-chunk pages: both chunks have
    [chunk_index] 0, but they are stored as [d_0] and [d_1]. *)
Lemma C5_ids_not_chunk_index :
  let self := Enc.chunker 800 100 in
  let pages := [mkPage 1 "Hello world." ∅; mkPage 2 "Second page." ∅] in
  let cs := snd (chunk_pages self ∅ pages "doc.pdf" "general") in
  let ids := fst (fst (store_chunks "d" "doc.pdf" "general" cs [tt; tt] None "now")) in
  map chunk_index cs = [0; 0]%nat ∧ ids = ["d_0"; "d_1"]%string ∧
  ids ≠ map (fun c => chunk_id "d" (chunk_index c)) cs.
Proof. vm_compute. split_and!; try reflexivity. discriminate. Qed.

Lemma store_go_spec {Emb} doc fn cat ub now (cs : list TextChunk) :
  ∀ (es : list Emb) i,
  let '(ids, docs, mds) := store_go doc fn cat ub now i cs es in
  ids = map (chunk_id doc) (seq i (length ids)) ∧
  length ids = min (length cs) (length es) ∧
  docs = map text (take (length ids) cs) ∧
  map (fun md => md !! "chunk_index"%string) mds =
    map (fun c => Some (VInt (Z.of_nat (chunk_index c)))) (take (length ids) cs).
Proof.
  induction cs as [|c cs IH]; intros es i; simpl.
  - split_and!; try done.
  - destruct es as [|e es]; [split_and!; done|].
    specialize (IH es (S i)).
    destruct (store_go doc fn cat ub now (S i) cs es) as [[ids docs] mds].
    destruct IH as (Hi & Hl & Hd & Hm). simpl.
    split_and!.
    + by rewrite Hi at 1.
    + by rewrite Hl.
    + by rewrite Hd.
    + rewrite Hm. f_equal.
      all: try (rewrite !lookup_insert_ne by discriminate; by rewrite lookup_insert_eq).
Qed.

(** Claim C5 (amended).  [_store_chunks] keys the [i]-th stored chunk by
    [{document_id}_{i}], [i] counting the document's whole chunk list (all
    pages) paired with its embeddings; the chunk's own [chunk_index] is
    stored in its metadata record instead. *)
Theorem C5_store_ids_by_position {Emb} doc fn cat (cs : list TextChunk)
    (es : list Emb) ub now :
  let '(ids, docs, mds) := store_chunks doc fn cat cs es ub now in
  ids = map (chunk_id doc) (seq 0 (length ids)) ∧
  length ids = min (length cs) (length es) ∧
  docs = map text (take (length ids) cs) ∧
  map (fun md => md !! "chunk_index"%string) mds =
    map (fun c => Some (VInt (Z.of_nat (chunk_index c)))) (take (length ids) cs).
Proof. apply store_go_spec. Qed.

(** Claim C6 (counterexample).  A long sentence containing a newline is
    cut into pieces joined with single spaces: neither the concatenation
    of the chunk texts nor their join with a space or a newline contains
    the sentence. *)
Lemma C6_fallback_rewrites_whitespace :
  let self := Enc.chunker 2 0 in
  let s := ("Alpha" ++ String "010"%char "beta gamma.")%string in
  let texts := map text (snd (chunk_text self ∅ s 1 None)) in
  split_into_sentences s = [s] ∧
  texts = ["Alpha beta"; "gamma."]%string ∧
  String.index 0 s (String.concat "" texts) = None ∧
  String.index 0 s (String.concat " " texts) = None ∧
  String.index 0 s (String.concat (String "010"%char "") texts) = None.
Proof. vm_compute. split_and!; reflexivity. Qed.

(** Claim C6 (amended).  The chunks of a [chunk_text] call can be grouped,
    in order, into (a) single chunks whose text is the stripped single-space
    join of an overlap [ov] followed by at least one new sentence, [ov]
    being a suffix of the sentences consumed before, and (b) the fallback
    pieces of one long sentence, whose word groups are exactly the words of
    that sentence, in order.  The new sentences and the long sentences,
    group after group, are exactly the splitter's sentences: none is
    dropped, repeated or reordered.  A fallback piece keeps the words of
    its sentence but replaces the whitespace between them by one space. *)
Theorem C6_sentence_coverage self h t page base :
  ∃ gs,
    map text (snd (chunk_text self h t page base)) =
      map strip (flat_map (group_texts self) gs) ∧
    flat_map fresh_of gs =
      (if bool_decide (strip t = ""%string) then [] else split_into_sentences t) ∧
    good self [] gs.
Proof.
  unfold chunk_text. case_bool_decide.
  - exists []. done.
  - destruct (base_or_empty h base) as [h1 b].
    apply run_cov.
Qed.

(** Claim C7.  The [chunk_index] values of one [chunk_text] call are
    [0, 1, ..., n-1]. *)
Theorem C7_indices_contiguous self h t page base :
  let cs := snd (chunk_text self h t page base) in
  map chunk_index cs = seq 0 (length cs).
Proof.
  simpl. unfold chunk_text. case_bool_decide; [done|].
  destruct (base_or_empty h base) as [h1 b]. simpl.
  pose proof (run_idx_inv self page b h1 (split_into_sentences t)) as Hr.
  unfold idx_inv in Hr. rewrite Hr.
  f_equal. rewrite <- (length_map chunk_index (chunks _)), Hr, length_seq. done.
Qed.

(** Claim C8 (counterexample).  The copy is shallow: with a base mapping
    [{"tags": xs}] for a list [xs], appending to [tags] through the first
    chunk's metadata changes what the second chunk's metadata holds. *)
Lemma C8_shallow_copy_shares_values :
  let self := Enc.chunker 1 0 in
  let h0 : heap :=
    <[0%nat := ODict {[ "tags"%string := VRef 1%nat ]}]> (<[1%nat := OList []]> ∅) in
  let '(h1, cs) := chunk_text self h0 "Aa. Bb." 1 (Some 0%nat) in
  match cs with
  | [c0; c1] =>
      let h2 := match dict_get h1 (metadata c0) "tags" with
                | Some (VRef l) => list_append h1 l (VStr "x")
                | _ => h1
                end in
      metadata c0 ≠ metadata c1 ∧
      dict_get h1 (metadata c1) "tags" = Some (VRef 1%nat) ∧
      dict_get h2 (metadata c1) "tags" = Some (VRef 1%nat) ∧
      h1 !! 1%nat = Some (OList []) ∧
      h2 !! 1%nat = Some (OList [VStr "x"])
  | _ => False
  end.
Proof. vm_compute. split_and!; try reflexivity. discriminate. Qed.

(** Claim C8 (amended).  Every chunk gets a new dict of its own: the
    chunks' metadata dicts are pairwise distinct, none of them existed
    before the call (so none is the base mapping), each holds the entries
    of [base_metadata or {}], and no object that existed before is changed;
    so setting a key in one chunk's metadata leaves every other chunk's
    metadata dict as it was.  The copy is shallow: a mutable value held in
    the base mapping is shared. *)
Theorem C8_metadata_own_dict self h t page base :
  let '(h', cs) := chunk_text self h t page base in
  NoDup (map metadata cs) ∧
  Forall (fun c => (metadata c ∉ dom h) ∧
                   dict_at h' (metadata c) = base_contents h base) cs ∧
  (∀ l, l ∈ dom h → h' !! l = h !! l) ∧
  (∀ i j c1 c2 k v, cs !! i = Some c1 → cs !! j = Some c2 → i ≠ j →
     dict_at (dict_set h' (metadata c1) k v) (metadata c2) = dict_at h' (metadata c2)).
Proof.
  unfold chunk_text. case_bool_decide.
  - split_and!; try done. constructor.
  - pose proof (base_or_empty_spec h base) as B.
    destruct (base_or_empty h base) as [h1 b].
    destruct B as (Hb & D1 & K1 & C1).
    destruct (run_meta self page h1 b Hb (split_into_sentences t)) as (D & K & N & F).
    split_and!.
    + done.
    + eapply Forall_impl; [exact F|]. intros c (H1 & _ & H3). split.
      * intros Hin. apply H1. set_solver.
      * by rewrite H3.
    + intros l Hl. rewrite K by set_solver. by apply K1.
    + intros i j c1 c2 k v Hi Hj Hij. apply dict_at_set_ne.
      exact (NoDup_map_lookup metadata _ i j c1 c2 N Hi Hj Hij).
Qed.

(** Claim C9.  Empty or whitespace-only text gives no chunk and leaves the
    heap as it was. *)
Theorem C9_blank_input_no_chunks self h t page base :
  Forall (fun c => is_space c = true) (list_ascii_of_string t) →
  chunk_text self h t page base = (h, []).
Proof.
  intros H. unfold chunk_text. rewrite bool_decide_eq_true_2; [done|].
  by apply strip_all_space.
Qed.

Lemma C9_witness :
  Forall (fun c => is_space c = true) (list_ascii_of_string "  ") ∧
  chunk_text (Enc.chunker 800 100) ∅ "  " 1 None = (∅, []).
Proof.
  assert (H : Forall (fun c => is_space c = true) (list_ascii_of_string "  "))
    by (repeat constructor).
  split; [exact H|]. exact (C9_blank_input_no_chunks _ _ _ _ _ H).
Defined.

(** Claim C10 (counterexample).  With an encoding in which a leading space
    adds no token, the assembled text [" Hello"] has leading whitespace and
    yet [token_count] equals the count of the stored text. *)
Lemma C10_equal_counts_despite_space :
  let self := Enc.chunker 800 100 in
  let '(_, c) := create_chunk self ∅ " Hello" 0 1 0%nat in
  token_count c = count_tokens self (text c) ∧
  strip " Hello" ≠ " Hello"%string.
Proof. vm_compute. split; [reflexivity|discriminate]. Qed.

(** Claim C10 (amended).  [_create_chunk] stores the stripped text and
    counts tokens on the text as passed; so [token_count] is the count of
    the stored text whenever the passed text has no leading or trailing
    whitespace (the converse need not hold). *)
Theorem C10_create_chunk_counts_unstripped self h t i p b :
  let '(_, c) := create_chunk self h t i p b in
  text c = strip t ∧ token_count c = count_tokens self t ∧
  (strip t = t → token_count c = count_tokens self (text c)).
Proof.
  pose proof (create_chunk_spec self h t i p b) as C.
  destruct (create_chunk self h t i p b) as [h' c].
  destruct C as (T & _ & _ & K & _).
  split_and!; try done. intros Hs. by rewrite K, T, Hs.
Qed.

End Claims.

(* ================================================================== *)
(** ** Further properties of the code *)
(* ================================================================== *)

Module StrFacts.
Import PyStr Props.

Lemma list_ascii_of_string_app (s1 s2 : string) :
  list_ascii_of_string (s1 ++ s2) = list_ascii_of_string s1 ++ list_ascii_of_string s2.
Proof. induction s1 as [|c s1 IH]; simpl; [done|]. by rewrite IH. Qed.

Lemma list_ascii_of_concat sep xs :
  list_ascii_of_string (String.concat sep xs) =
    join_l (list_ascii_of_string sep) (map list_ascii_of_string xs).
Proof.
  induction xs as [|x [|y xs] IH]; simpl; [done|done|].
  rewrite !list_ascii_of_string_app. simpl in IH. by rewrite IH.
Qed.

Lemma lstrip_length l : (length (lstrip_l l) <= length l)%nat.
Proof. induction l as [|c l IH]; simpl; [lia|]. destruct (is_space c); simpl; lia. Qed.

Lemma lstrip_suffix l : ∃ p, l = p ++ lstrip_l l ∧ Forall (fun c => is_space c = true) p.
Proof.
  induction l as [|c l IH]; simpl; [by exists []|].
  destruct (is_space c) eqn:E.
  - destruct IH as (p & Hp & Fp). exists (c :: p). split; [by rewrite Hp at 1|by constructor].
  - by exists [].
Qed.

Lemma lstrip_idem l : lstrip_l (lstrip_l l) = lstrip_l l.
Proof.
  induction l as [|c l IH]; simpl; [done|].
  destruct (is_space c) eqn:E; [done|]. simpl. by rewrite E.
Qed.

Lemma lstrip_fixed_cons c l : lstrip_l (c :: l) = c :: l → is_space c = false.
Proof.
  simpl. destruct (is_space c); [|done].
  intros H. pose proof (lstrip_length l) as L. rewrite H in L. simpl in L. lia.
Qed.

Lemma lstrip_fixed_prefix x a b : lstrip_l x = x → x = a ++ b → lstrip_l a = a.
Proof.
  intros Hx ->. destruct a as [|c a]; [done|].
  apply lstrip_fixed_cons in Hx. simpl. by rewrite Hx.
Qed.

(** A stripped list: it neither starts nor ends with whitespace. *)
Definition tight (l : list ascii) : Prop := lstrip_l l = l ∧ lstrip_l (rev l) = rev l.

Lemma strip_l_tight l : tight (strip_l l).
Proof.
  unfold strip_l, tight.
  set (x := lstrip_l l). set (y := lstrip_l (rev x)).
  rewrite rev_involutive. split; [|apply lstrip_idem].
  destruct (lstrip_suffix (rev x)) as (q & Hq & _). fold y in Hq.
  apply (lstrip_fixed_prefix x (rev y) (rev q)); [apply lstrip_idem|].
  rewrite <- (rev_involutive x), Hq, rev_app_distr. done.
Qed.

Lemma tight_strip_l l : tight l → strip_l l = l.
Proof. intros [H1 H2]. unfold strip_l. by rewrite H1, H2, rev_involutive. Qed.

Lemma strip_l_idem l : strip_l (strip_l l) = strip_l l.
Proof. apply tight_strip_l, strip_l_tight. Qed.

Lemma strip_idem s : strip (strip s) = strip s.
Proof. unfold strip. by rewrite list_ascii_of_string_of_list_ascii, strip_l_idem. Qed.

Lemma nsp_app l1 l2 : nsp (l1 ++ l2) = nsp l1 ++ nsp l2.
Proof.
  induction l1 as [|c l1 IH]; simpl; [done|]. rewrite IH. by destruct (is_space c).
Qed.

Lemma nsp_rev l : nsp (rev l) = rev (nsp l).
Proof.
  induction l as [|c l IH]; simpl; [done|].
  rewrite nsp_app, IH. simpl. destruct (is_space c); simpl; [by rewrite app_nil_r|done].
Qed.

Lemma nsp_spaces p : Forall (fun c => is_space c = true) p → nsp p = [].
Proof. induction 1 as [|c p Hc _ IH]; simpl; [done|]. by rewrite Hc. Qed.

Lemma nsp_lstrip l : nsp (lstrip_l l) = nsp l.
Proof.
  destruct (lstrip_suffix l) as (p & Hp & Fp).
  rewrite Hp at 2. rewrite nsp_app, (nsp_spaces p Fp). done.
Qed.

Lemma nsp_strip_l l : nsp (strip_l l) = nsp l.
Proof. unfold strip_l. by rewrite nsp_rev, nsp_lstrip, nsp_rev, nsp_lstrip, rev_involutive. Qed.

Lemma visible_strip s : visible (strip s) = visible s.
Proof. unfold visible, strip. by rewrite list_ascii_of_string_of_list_ascii, nsp_strip_l. Qed.

Lemma lstrip_nil_spaces l : lstrip_l l = [] ↔ Forall (fun c => is_space c = true) l.
Proof.
  induction l as [|c l IH]; simpl; [split; done|].
  destruct (is_space c) eqn:E.
  - rewrite IH. split; [by constructor|by inversion 1].
  - split; [done|]. inversion 1; congruence.
Qed.

Lemma nsp_nil_spaces l : nsp l = [] ↔ Forall (fun c => is_space c = true) l.
Proof.
  induction l as [|c l IH]; simpl; [split; done|].
  destruct (is_space c) eqn:E; simpl.
  - rewrite IH. split; [by constructor|by inversion 1].
  - split; [done|]. inversion 1; congruence.
Qed.

Lemma strip_l_nil l : strip_l l = [] ↔ nsp l = [].
Proof.
  rewrite nsp_nil_spaces. unfold strip_l. split.
  - intros H. apply (f_equal (@rev ascii)) in H. rewrite rev_involutive in H. simpl in H.
    apply lstrip_nil_spaces in H. apply Forall_rev in H. rewrite rev_involutive in H.
    destruct (lstrip_suffix l) as (p & Hp & Fp). rewrite Hp. apply Forall_app. by split.
  - intros H. by rewrite (proj2 (lstrip_nil_spaces l) H).
Qed.

Lemma strip_empty s : strip s = ""%string ↔ visible s = [].
Proof.
  unfold strip, visible. rewrite <- strip_l_nil. split.
  - intros H. apply (f_equal list_ascii_of_string) in H.
    by rewrite list_ascii_of_string_of_list_ascii in H.
  - intros ->. done.
Qed.

End StrFacts.

Module SentFacts.
Import PyStr Sentences Props StrFacts.

Lemma nsp_space_cons c l : is_space c = true → nsp (c :: l) = nsp l.
Proof. intros H. simpl. by rewrite H. Qed.

Lemma nsp_cons c l : nsp (c :: l) = (if is_space c then [] else [c]) ++ nsp l.
Proof. unfold nsp. simpl. by destruct (is_space c). Qed.

Lemma re_split_go_nsp l : ∀ cur pend,
  (∀ ws, pend = Some ws → Forall (fun c => is_space c = true) ws) →
  concat (map nsp (re_split_go cur pend l)) = nsp (rev cur) ++ nsp l.
Proof.
  induction l as [|c r IH]; intros cur pend Hp; cbn [re_split_go].
  - change (nsp []) with (@nil ascii).
    destruct pend as [ws|]; cbn [map concat]; rewrite !app_nil_r; [|done].
    rewrite rev_app_distr, nsp_app, (nsp_spaces (rev ws)); [apply app_nil_r|].
    by apply Forall_rev, Hp.
  - rewrite nsp_cons. destruct pend as [ws|].
    + pose proof (Hp ws eq_refl) as Fw.
      destruct (is_space c) eqn:Ec.
      * rewrite IH; [done|]. intros ? [= <-]. by constructor.
      * destruct (is_upper c && negb (bool_decide (ws = []))); cbn [map concat].
        -- rewrite IH; [|done]. cbn [rev app]. rewrite nsp_cons, Ec.
           change (nsp []) with (@nil ascii). done.
        -- rewrite IH; [|by destruct (is_term c); intros ? [= <-]].
           cbn [rev]. rewrite rev_app_distr, !nsp_app, (nsp_spaces (rev ws)) by by apply Forall_rev.
           rewrite nsp_cons, Ec. change (nsp []) with (@nil ascii).
           by rewrite <- !app_assoc.
    + rewrite IH; [|by destruct (is_term c); intros ? [= <-]].
      cbn [rev]. rewrite nsp_app, nsp_cons. change (nsp []) with (@nil ascii).
      by rewrite <- !app_assoc.
Qed.

Lemma re_split_visible t : concat (map visible (re_split t)) = visible t.
Proof.
  unfold re_split, visible. rewrite map_map.
  rewrite (map_ext _ nsp) by (intros; by rewrite list_ascii_of_string_of_list_ascii).
  rewrite re_split_go_nsp; [done|]. done.
Qed.

Lemma split_into_sentences_visible t :
  concat (map visible (Sentences.split_into_sentences t)) = visible t.
Proof.
  unfold Sentences.split_into_sentences. rewrite <- re_split_visible.
  induction (re_split t) as [|s ss IH]; [done|].
  rewrite fmap_cons, filter_cons. cbn [map concat]. rewrite <- IH, <- visible_strip.
  case_bool_decide as E; simpl.
  - by rewrite E.
  - done.
Qed.

Lemma split_into_sentences_shape t s :
  s ∈ Sentences.split_into_sentences t → s ≠ ""%string ∧ strip s = s.
Proof.
  unfold Sentences.split_into_sentences. intros H.
  apply list_elem_of_filter in H as [Hne Hs].
  apply list_elem_of_fmap in Hs as (s' & -> & _).
  split; [by case_bool_decide|apply strip_idem].
Qed.

End SentFacts.

Module WordFacts.
Import PyStr Props StrFacts SentFacts.

Definition word_ok (w : list ascii) : Prop :=
  w ≠ [] ∧ Forall (fun c => is_space c = false) w.

Lemma rev_cons_ne (x : ascii) xs : rev (x :: xs) ≠ [].
Proof. intros Hr. apply (f_equal length) in Hr. rewrite length_rev in Hr. discriminate. Qed.

Lemma split_go_words l : ∀ cur,
  Forall (fun c => is_space c = false) cur → Forall word_ok (split_go cur l).
Proof.
  induction l as [|c r IH]; intros cur Hc; simpl.
  - destruct cur as [|x xs]; [done|]. constructor; [|done].
    split; [apply rev_cons_ne|]. by apply Forall_rev.
  - destruct (is_space c) eqn:E.
    + destruct cur as [|x xs]; [by apply IH|]. constructor.
      * split; [apply rev_cons_ne|]. by apply Forall_rev.
      * by apply IH.
    + apply IH. by constructor.
Qed.

Lemma split_words s w : w ∈ split s → word_ok (list_ascii_of_string w).
Proof.
  unfold split. intros H. apply list_elem_of_fmap in H as (l & -> & Hl).
  rewrite list_ascii_of_string_of_list_ascii.
  pose proof (split_go_words (list_ascii_of_string s) [] ltac:(constructor)) as F.
  rewrite Forall_forall in F. by apply F.
Qed.

Lemma split_go_app_word w : ∀ cur rest,
  Forall (fun c => is_space c = false) w →
  split_go cur (w ++ rest) = split_go (rev w ++ cur) rest.
Proof.
  induction w as [|c w IH]; intros cur rest Hw; simpl; [done|].
  inversion Hw as [|? ? Hc Hw']; subst. rewrite Hc, IH by done.
  by rewrite <- app_assoc.
Qed.

Lemma split_go_join ws :
  Forall word_ok ws → split_go [] (join_l [" "%char] ws) = ws.
Proof.
  induction ws as [|w [|w' ws] IH]; intros F; [done| |].
  - inversion F as [|? ? [Hne Hw] _]; subst. simpl.
    rewrite <- (app_nil_r w) at 1. rewrite split_go_app_word by done.
    simpl. rewrite app_nil_r. destruct (rev w) eqn:E.
    + apply (f_equal (@rev ascii)) in E. rewrite rev_involutive in E. by subst.
    + rewrite <- E, rev_involutive. done.
  - inversion F as [|? ? [Hne Hw] F']; subst.
    change (join_l [" "%char] (w :: w' :: ws)) with (w ++ [" "%char] ++ join_l [" "%char] (w' :: ws)).
    remember (join_l [" "%char] (w' :: ws)) as J eqn:HJ.
    rewrite split_go_app_word by done. rewrite app_nil_r. simpl.
    destruct (rev w) eqn:E.
    + apply (f_equal (@rev ascii)) in E. rewrite rev_involutive in E. by subst.
    + rewrite <- E, rev_involutive, IH by done. done.
Qed.

Lemma split_join g :
  (∀ w, w ∈ g → word_ok (list_ascii_of_string w)) → split (join g) = g.
Proof.
  intros Hg. unfold split, join. rewrite list_ascii_of_concat.
  rewrite split_go_join.
  - rewrite map_map. rewrite (map_ext _ id) by (intros; apply string_of_list_ascii_of_string).
    apply map_id.
  - apply Forall_forall. intros l Hl. apply list_elem_of_In in Hl. apply in_map_iff in Hl.
    destruct Hl as (w & <- & Hw). apply Hg. by apply list_elem_of_In.
Qed.

Lemma nsp_nonspace l : Forall (fun c => is_space c = false) l → nsp l = l.
Proof. induction 1 as [|c l Hc _ IH]; [done|]. rewrite nsp_cons, Hc, IH. done. Qed.

Lemma word_visible w : word_ok (list_ascii_of_string w) → visible w ≠ [].
Proof. intros [Hne Hw]. unfold visible. by rewrite nsp_nonspace. Qed.

Lemma visible_join xs : visible (join xs) = concat (map visible xs).
Proof.
  unfold visible, join. rewrite list_ascii_of_concat.
  change (list_ascii_of_string " ") with [" "%char].
  induction xs as [|x [|y xs] IH]; [done|simpl; by rewrite app_nil_r|].
  change (join_l [" "%char] (map list_ascii_of_string (x :: y :: xs)))
    with (list_ascii_of_string x ++ [" "%char] ++ join_l [" "%char] (map list_ascii_of_string (y :: xs))).
  rewrite !nsp_app, IH. done.
Qed.

Lemma visible_join_ne xs s : s ∈ xs → visible s ≠ [] → visible (join xs) ≠ [].
Proof.
  intros Hs Hv. rewrite visible_join. intros Hc.
  apply Hv. apply list_elem_of_split in Hs as (l1 & l2 & ->).
  rewrite map_app, concat_app in Hc. simpl in Hc.
  apply app_eq_nil in Hc as [_ Hc]. apply app_eq_nil in Hc as [Hc _]. done.
Qed.

Lemma nsp_exists l : nsp l ≠ [] → Exists (fun c => is_space c = false) l.
Proof.
  induction l as [|c l IH]; [done|]. rewrite nsp_cons.
  destruct (is_space c) eqn:E; intros H.
  - right. by apply IH.
  - by left.
Qed.

Lemma nonblank_visible s : strip s ≠ ""%string ↔ visible s ≠ [].
Proof. rewrite strip_empty. done. Qed.

Lemma sentence_visible t s : s ∈ Sentences.split_into_sentences t → visible s ≠ [].
Proof.
  intros H. destruct (split_into_sentences_shape t s H) as [Hne Hs].
  apply nonblank_visible. by rewrite Hs.
Qed.

Lemma sentence_words t s : s ∈ Sentences.split_into_sentences t → split s ≠ [].
Proof. intros H. apply SplitFacts.split_nonempty, nsp_exists, (sentence_visible t s H). Qed.

Lemma sentences_nonempty t : strip t ≠ ""%string → Sentences.split_into_sentences t ≠ [].
Proof.
  intros H Hn. apply nonblank_visible in H. apply H.
  rewrite <- split_into_sentences_visible, Hn. done.
Qed.

End WordFacts.

Module RunFacts.
Import PyStr Heap HeapFacts Chunker ChunkerFacts SplitFacts Spec Coverage Props StrFacts SentFacts WordFacts.

Section Facts.
Variable self : TextChunker.

Lemma split_long_text_ne s : split s ≠ [] → split_long_text self s ≠ [].
Proof.
  intros Hs. destruct (split_long_text_spec self s) as (gs & Hr & Hc & _).
  rewrite Hr. destruct gs; [|discriminate]. simpl in Hc. by rewrite <- Hc in Hs.
Qed.

Lemma split_long_text_words s :
  flat_map split (split_long_text self s) = split s ∧
  Forall (fun p => visible p ≠ []) (split_long_text self s).
Proof.
  destruct (split_long_text_spec self s) as (gs & Hr & Hc & Hg). rewrite Hr.
  assert (Hw : ∀ g, g ∈ gs → ∀ w, w ∈ g → word_ok (list_ascii_of_string w)).
  { intros g Hg' w Hw. apply (split_words s). rewrite <- Hc.
    apply list_elem_of_In, in_concat. exists g. split; by apply list_elem_of_In. }
  assert (Hne : ∀ g, g ∈ gs → g ≠ []).
  { clear Hr Hc Hw. induction gs as [|g gs IH]; intros g' Hin; [inversion Hin|].
    destruct Hg as (Hg0 & _ & _ & Hg). apply elem_of_cons in Hin as [->|Hin]; [done|].
    by apply IH. }
  split.
  - rewrite <- Hc. clear Hr Hc Hg. induction gs as [|g gs IH]; [done|]. simpl.
    rewrite split_join by (intros; apply (Hw g); [left|done]).
    rewrite IH; [done| |].
    + intros g' Hg'. apply Hw. by right.
    + intros g' Hg'. apply Hne. by right.
  - apply Forall_forall. intros p Hp. apply list_elem_of_fmap in Hp as (g & -> & Hg').
    destruct g as [|w g]; [by destruct (Hne [] Hg')|].
    apply (visible_join_ne _ w); [left|]. apply word_visible, (Hw (w :: g)); [done|left].
Qed.

Section Loop.
Variable page : Z.
Variable base : loc.

Abbreviation step := (Chunker.step self page base).

Definition on_page (st : St) : Prop := Forall (fun c => page_number c = page) (chunks st).

Lemma emit_on_page st t : on_page st → on_page (emit self page base st t).
Proof.
  unfold on_page, emit. intros H.
  pose proof (create_chunk_spec self (hp st) t (idx st) page base) as C.
  destruct (create_chunk self (hp st) t (idx st) page base) as [h' c].
  destruct C as (_ & _ & P & _). simpl. apply Forall_app. split; [done|]. by constructor.
Qed.

Lemma emit_all_on_page ts : ∀ st, on_page st → on_page (emit_all self page base st ts).
Proof.
  induction ts as [|t ts IH]; intros st H; [done|]. unfold emit_all. simpl.
  apply IH, emit_on_page, H.
Qed.

Lemma step_on_page st s : on_page st → on_page (step st s).
Proof.
  intros H. unfold Chunker.step.
  destruct (Z.of_nat (count_tokens self s) >? chunk_size self).
  - apply emit_all_on_page. destruct (current_chunk st) as [|x xs]; [done|].
    pose proof (emit_on_page st (join (x :: xs)) H) as H'. exact H'.
  - destruct (Z.of_nat (current_tokens st + count_tokens self s) >? chunk_size self).
    + destruct (current_chunk st) as [|x xs]; [exact H|].
      destruct (get_overlap self (x :: xs) (current_tokens st)) as [ov ot].
      exact (emit_on_page st _ H).
    + exact H.
Qed.

Lemma run_on_page h sentences : on_page (run self page base h sentences).
Proof.
  assert (Hf : ∀ l st, on_page st → on_page (fold_left step l st)).
  { induction l as [|s l IH]; intros st Hst; simpl; [done|].
    apply IH, step_on_page, Hst. }
  unfold run. pose proof (Hf sentences (mkSt [] [] 0 0 h) ltac:(constructor)) as H.
  destruct (current_chunk (fold_left step sentences _)); [done|].
  by apply emit_on_page.
Qed.

Definition busy (st : St) : Prop := chunks st ≠ [] ∨ current_chunk st ≠ [].

Lemma emit_all_len st ts :
  length (chunks (emit_all self page base st ts)) = (length (chunks st) + length ts)%nat.
Proof.
  destruct (emit_all_view self page base ts st) as (V & _).
  apply (f_equal length) in V. rewrite !length_map, length_app in V.
  rewrite V, length_map. f_equal. clear V. generalize (idx st). induction ts; intros i; simpl; [done|]. by rewrite IHts.
Qed.

Lemma step_busy st s : split s ≠ [] → busy (step st s).
Proof.
  intros Hs. unfold Chunker.step, busy.
  destruct (Z.of_nat (count_tokens self s) >? chunk_size self).
  - left. intros Hc. apply (f_equal length) in Hc. rewrite emit_all_len in Hc.
    pose proof (split_long_text_ne s Hs) as Hn.
    destruct (split_long_text self s); [done|]. simpl in Hc. lia.
  - right. simpl. destruct (current_chunk _); simpl; try discriminate.
Qed.

Lemma run_nonempty h sentences :
  sentences ≠ [] → Forall (fun s => split s ≠ []) sentences →
  chunks (run self page base h sentences) ≠ [].
Proof.
  intros Hne Hall.
  assert (Hf : ∀ l st, l ≠ [] → Forall (fun s => split s ≠ []) l → busy (fold_left step l st)).
  { induction l as [|s l IH]; intros st Hl Fl; [done|]. simpl.
    inversion Fl as [|? ? Hs Fl']; subst.
    destruct l as [|s' l]; [by apply step_busy|]. apply IH; done. }
  unfold run. destruct (Hf sentences (mkSt [] [] 0 0 h) Hne Hall) as [H|H];
  destruct (current_chunk (fold_left step sentences _)) eqn:E; try done.
  - unfold emit. destruct (create_chunk _ _ _ _ _ _). simpl.
    intros Hc. by apply app_eq_nil in Hc as [_ ?].
  - unfold emit. destruct (create_chunk _ _ _ _ _ _). simpl.
    intros Hc. by apply app_eq_nil in Hc as [_ ?].
Qed.

End Loop.

Lemma good_normal_fresh seen gs ov fr :
  good self seen gs → GNormal ov fr ∈ gs → fr ≠ [].
Proof.
  revert seen. induction gs as [|g gs IH]; intros seen Hg Hin; [inversion Hin|].
  destruct Hg as [Hp Hg]. apply elem_of_cons in Hin as [<-|Hin].
  - by destruct Hp.
  - by eapply IH.
Qed.

Lemma fresh_in gs g s : g ∈ gs → s ∈ fresh_of g → s ∈ flat_map fresh_of gs.
Proof.
  intros Hg Hs. apply list_elem_of_In, in_flat_map. exists g.
  split; by apply list_elem_of_In.
Qed.

(** Every text a run produces shows a non-whitespace character, when every
    sentence does. *)
Lemma run_texts_visible page base h sentences :
  (∀ s, s ∈ sentences → visible s ≠ [] ∧ split s ≠ []) →
  Forall (fun c => visible (text c) ≠ [] ∧ strip (text c) = text c)
    (chunks (run self page base h sentences)).
Proof.
  intros Hs. destruct (run_cov self page base h sentences) as (gs & Ht & Hf & Hg).
  apply Forall_forall. intros c Hc.
  assert (Hx : text c ∈ map strip (flat_map (group_texts self) gs)).
  { rewrite <- Ht. by apply list_elem_of_fmap_2. }
  apply list_elem_of_fmap in Hx as (x & Hx & Hin). rewrite Hx.
  split; [|apply strip_idem]. rewrite visible_strip.
  apply list_elem_of_In, in_flat_map in Hin as (g & Hg' & Hx').
  apply list_elem_of_In in Hg', Hx'.
  destruct g as [ov fr|s]; simpl in Hx'.
  - apply list_elem_of_singleton in Hx' as ->.
    pose proof (good_normal_fresh [] gs ov fr Hg Hg') as Hfr.
    destruct fr as [|s fr]; [done|].
    apply (visible_join_ne _ s); [apply elem_of_app; right; left|].
    apply Hs. rewrite <- Hf. apply (fresh_in gs (GNormal ov (s :: fr))); [done|left].
  - destruct (split_long_text_words s) as [_ F]. rewrite Forall_forall in F. by apply F.
Qed.

End Facts.
End RunFacts.

Module TextFacts.
Import PyStr Heap HeapFacts Chunker ChunkerFacts Spec MetaFacts Pipeline Props StrFacts SentFacts WordFacts RunFacts.

Section Facts.
Variable self : TextChunker.

Lemma chunk_text_frame h t p base :
  let '(h', cs) := chunk_text self h t p base in
  dom h ⊆ dom h' ∧ (∀ l, l ∈ dom h → h' !! l = h !! l) ∧
  Forall (fun c => (metadata c ∉ dom h) ∧ metadata c ∈ dom h' ∧
                   dict_at h' (metadata c) = base_contents h base ∧ page_number c = p) cs.
Proof.
  unfold chunk_text. case_bool_decide; [split_and!; done|].
  pose proof (base_or_empty_spec h base) as B.
  destruct (base_or_empty h base) as [h1 b] eqn:Eb.
  destruct B as (Hb & D1 & K1 & Hd).
  set (sentences := Sentences.split_into_sentences t).
  destruct (run_meta self p h1 b Hb sentences) as (D2 & K2 & _ & F2).
  pose proof (run_on_page self p b h1 sentences) as P2.
  unfold on_page in P2.
  set (st := run self p b h1 sentences) in *. simpl. split_and!.
  - set_solver.
  - intros l Hl. rewrite K2 by set_solver. by apply K1.
  - apply Forall_forall. intros c Hc.
    rewrite Forall_forall in F2, P2. destruct (F2 c Hc) as (N & I & Dc).
    split_and!; [set_solver|done|by rewrite Dc|by apply P2].
Qed.

Lemma chunk_text_nonempty h t p base :
  strip t ≠ ""%string → (chunk_text self h t p base).2 ≠ [].
Proof.
  intros Ht. unfold chunk_text. case_bool_decide; [done|].
  destruct (base_or_empty h base) as [h1 b]. simpl.
  apply run_nonempty; [by apply sentences_nonempty|].
  apply Forall_forall. intros s Hs. by apply (sentence_words t).
Qed.

Lemma chunk_text_texts h t p base :
  Forall (fun c => text c ≠ ""%string ∧ strip (text c) = text c)
    (chunk_text self h t p base).2.
Proof.
  unfold chunk_text. case_bool_decide; [done|].
  destruct (base_or_empty h base) as [h1 b]. simpl.
  eapply Forall_impl.
  - apply run_texts_visible. intros s Hs.
    split; [by apply (sentence_visible t)|by apply (sentence_words t)].
  - intros c [Hv Hs]. split; [|done]. intros He. apply Hv.
    apply strip_empty. by rewrite Hs.
Qed.

(** The base dict [chunk_pages] builds for a page. *)
Definition page_base (document_name category : string) (pg : ExtractedPage)
    : gmap string PyVal :=
  <["source" := default (VStr "") (pg_metadata pg !! "source"%string)]>
  (<["category" := VStr category]>
  (<["document_name" := VStr document_name]> ∅)).

Lemma chunk_pages_frame pages : ∀ h n cat,
  let '(h', cs) := chunk_pages self h pages n cat in
  dom h ⊆ dom h' ∧ (∀ l, l ∈ dom h → h' !! l = h !! l) ∧
  Forall (fun c => (metadata c ∉ dom h) ∧ metadata c ∈ dom h' ∧
    ∃ pg, pg ∈ pages ∧ page_number c = pg_number pg ∧
          dict_at h' (metadata c) = page_base n cat pg) cs.
Proof.
  induction pages as [|pg pages IH]; intros h n cat; cbn [chunk_pages]; [split_and!; done|].
  pose proof (alloc_spec h (ODict (page_base n cat pg))) as A.
  unfold page_base in A.
  destruct (alloc h _) as [h1 bl]. destruct A as (F1 & L1 & K1 & D1).
  pose proof (chunk_text_frame h1 (pg_text pg) (pg_number pg) (Some bl)) as C.
  destruct (chunk_text self h1 _ _ _) as [h2 cs1].
  destruct C as (D2 & K2 & F2).
  specialize (IH h2 n cat). destruct (chunk_pages self h2 pages n cat) as [h3 cs2].
  destruct IH as (D3 & K3 & F3).
  simpl. split_and!.
  - set_solver.
  - intros l Hl. rewrite K3 by set_solver. rewrite K2 by set_solver. by apply K1.
  - apply Forall_app. split.
    + eapply Forall_impl; [exact F2|]. intros c (N & I & Dc & Pc). split_and!.
      * set_solver.
      * set_solver.
      * exists pg. split_and!; [left|done|].
        unfold dict_at in *. rewrite K3 by done. rewrite Dc. cbn [base_contents].
        unfold dict_at. by rewrite L1.
    + eapply Forall_impl; [exact F3|]. intros c (N & I & pg' & Hpg & Pc & Dc). split_and!.
      * set_solver.
      * done.
      * exists pg'. split_and!; [by right|done|done].
Qed.

End Facts.
End TextFacts.

Module CleanFacts.
Import PyStr Heap Pipeline Extractor Props StrFacts SentFacts WordFacts.

Lemma nsp_repeat_space c n : is_space c = true → nsp (repeat c n) = [].
Proof. intros H. induction n as [|n IH]; [done|]. cbn [repeat]. rewrite nsp_cons, H, IH. done. Qed.

Lemma nsp_flush_run c k rep n :
  is_space c = true → nsp rep = [] → nsp (flush_run c k rep n) = [].
Proof. intros Hc Hr. unfold flush_run. destruct (k <=? n)%nat; [done|]. by apply nsp_repeat_space. Qed.

Lemma nsp_sub_runs c k rep l : ∀ n,
  is_space c = true → nsp rep = [] → nsp (sub_runs c k rep n l) = nsp l.
Proof.
  induction l as [|x r IH]; intros n Hc Hr; cbn [sub_runs].
  - by apply nsp_flush_run.
  - case_bool_decide as E.
    + subst x. rewrite IH by done. rewrite nsp_cons, Hc. done.
    + rewrite nsp_app, nsp_flush_run, nsp_cons, IH by done. by rewrite nsp_cons.
Qed.

Lemma visible_re_sub_runs c k rep t :
  is_space c = true → visible rep = [] → visible (re_sub_runs c k rep t) = visible t.
Proof.
  intros Hc Hr. unfold re_sub_runs, visible.
  rewrite list_ascii_of_string_of_list_ascii. by apply nsp_sub_runs.
Qed.

Lemma nsp_split_sep sep l : ∀ cur,
  is_space sep = true →
  concat (map nsp (split_sep_go sep cur l)) = nsp (rev cur) ++ nsp l.
Proof.
  induction l as [|x r IH]; intros cur Hs; cbn [split_sep_go].
  - cbn [map concat]. rewrite !app_nil_r. done.
  - case_bool_decide as E.
    + subst x. cbn [map concat]. rewrite IH by done. rewrite nsp_cons, Hs. done.
    + rewrite IH by done. cbn [rev]. rewrite nsp_app, !nsp_cons. change (nsp []) with (@nil ascii). by rewrite app_nil_r, <- app_assoc.
Qed.

Lemma visible_split_on sep t :
  is_space sep = true → concat (map visible (split_on sep t)) = visible t.
Proof.
  intros Hs. unfold split_on, visible. rewrite map_map.
  rewrite (map_ext _ nsp) by (intros; by rewrite list_ascii_of_string_of_list_ascii).
  by rewrite nsp_split_sep.
Qed.

Lemma visible_concat sep xs :
  visible sep = [] → visible (String.concat sep xs) = concat (map visible xs).
Proof.
  intros Hs. unfold visible in *. rewrite list_ascii_of_concat.
  induction xs as [|x [|y xs] IH]; [done|simpl; by rewrite app_nil_r|].
  change (join_l (list_ascii_of_string sep) (map list_ascii_of_string (x :: y :: xs)))
    with (list_ascii_of_string x ++ list_ascii_of_string sep ++
          join_l (list_ascii_of_string sep) (map list_ascii_of_string (y :: xs))).
  rewrite !nsp_app, IH, Hs. done.
Qed.

Lemma visible_clean_text t : visible (clean_text t) = visible t.
Proof.
  unfold clean_text. rewrite visible_strip, visible_concat by done.
  rewrite map_map, (map_ext _ visible) by (intros; apply visible_strip).
  rewrite visible_split_on by done.
  rewrite !visible_re_sub_runs by done. done.
Qed.

Lemma clean_text_blank t : strip (clean_text t) = ""%string ↔ strip t = ""%string.
Proof. rewrite !strip_empty, visible_clean_text. done. Qed.

Lemma clean_text_stripped t : strip (clean_text t) = clean_text t.
Proof. unfold clean_text. apply strip_idem. Qed.

End CleanFacts.

Module PageFacts.
Import PyStr Heap Pipeline Extractor Props StrFacts SentFacts WordFacts CleanFacts.

Lemma pdf_pages_sound fp doc : ∀ n pg, pg ∈ pdf_pages fp n doc →
  ∃ k page, doc !! k = Some page ∧ pg_number pg = Z.of_nat (S (n + k)) ∧
    pg_text pg = clean_text (get_text page) ∧ strip (get_text page) ≠ ""%string ∧
    pg_metadata pg !! "source"%string = Some (VStr fp) ∧
    pg_metadata pg !! "page_width"%string = Some (rect_width page) ∧
    pg_metadata pg !! "page_height"%string = Some (rect_height page).
Proof.
  induction doc as [|page doc IH]; intros n pg Hin; [inversion Hin|].
  cbn [pdf_pages] in Hin. case_bool_decide as Hb.
  - destruct (IH (S n) pg Hin) as (k & page' & Hk & Hrest).
    exists (S k), page'. split; [done|]. rewrite Nat.add_succ_r. exact Hrest.
  - apply elem_of_cons in Hin as [->|Hin].
    + exists 0%nat, page. simpl. rewrite Nat.add_0_r. split_and!; try done. by rewrite <- clean_text_blank.
    + destruct (IH (S n) pg Hin) as (k & page' & Hk & Hrest).
      exists (S k), page'. split; [done|]. rewrite Nat.add_succ_r. exact Hrest.
Qed.

Lemma pdf_pages_complete fp doc : ∀ n k page,
  doc !! k = Some page → strip (get_text page) ≠ ""%string →
  ∃ pg, pg ∈ pdf_pages fp n doc ∧ pg_number pg = Z.of_nat (S (n + k)).
Proof.
  induction doc as [|p doc IH]; intros n k page Hk Hb; [done|].
  cbn [pdf_pages]. destruct k as [|k].
  - injection Hk as <-. case_bool_decide as E; [exfalso; by apply Hb, clean_text_blank|].
    eexists. split; [left|]. simpl. by rewrite Nat.add_0_r.
  - destruct (IH (S n) k page Hk Hb) as (pg & Hpg & Hn).
    exists pg. rewrite Nat.add_succ_r. split; [|done].
    case_bool_decide; [done|by right].
Qed.

Lemma pdf_pages_sorted fp doc : ∀ n,
  StronglySorted (fun a b => pg_number a < pg_number b) (pdf_pages fp n doc).
Proof.
  induction doc as [|page doc IH]; intros n; cbn [pdf_pages]; [constructor|].
  case_bool_decide; [apply IH|]. constructor; [apply IH|].
  apply Forall_forall. intros pg Hpg.
  destruct (pdf_pages_sound fp doc (S n) pg Hpg) as (k & _ & _ & Hn & _). simpl. lia.
Qed.

Lemma list_filter_nil {A} (P : A → Prop) `{∀ x, Decision (P x)} (l : list A) :
  filter P l = [] ↔ Forall (fun x => ¬ P x) l.
Proof.
  induction l as [|x l IH]; [split; done|]. rewrite filter_cons, Forall_cons.
  case_decide; [split; [done|intros [? _]; done]|]. rewrite IH. naive_solver.
Qed.

Lemma visible_concat_head sep x xs : visible x ≠ [] → visible (String.concat sep (x :: xs)) ≠ [].
Proof.
  intros Hx. destruct xs as [|y xs]; [done|].
  change (String.concat sep (x :: y :: xs)) with (x ++ sep ++ String.concat sep (y :: xs))%string.
  unfold visible in *. rewrite list_ascii_of_string_app, nsp_app.
  intros H. by apply app_eq_nil in H as [? _].
Qed.

Lemma full_text_visible doc : Forall (fun s => visible s ≠ []) (full_text doc).
Proof.
  unfold full_text. apply Forall_app. split.
  - apply Forall_forall. intros p Hp. apply list_elem_of_filter in Hp as [Hp _].
    by apply nonblank_visible.
  - apply Forall_forall. intros s Hs. apply list_elem_of_In, in_flat_map in Hs as (tb & _ & Hs).
    apply in_flat_map in Hs as (row & _ & Hs).
    destruct (row_text row) as [|c cs] eqn:E; [done|].
    destruct Hs as [<-|[]]. apply visible_concat_head.
    assert (Hc : c ∈ row_text row) by (rewrite E; left).
    unfold row_text in Hc. apply list_elem_of_fmap in Hc as (c' & -> & Hc').
    apply list_elem_of_filter in Hc' as [Hc' _].
    rewrite visible_strip. by apply nonblank_visible.
Qed.

Lemma full_text_nil doc :
  full_text doc = [] ↔
  Forall (fun p => strip p = ""%string) (paragraphs doc) ∧
  Forall (Forall (Forall (fun c => strip c = ""%string))) (tables doc).
Proof.
  unfold full_text. rewrite app_nil, list_filter_nil.
  assert (Hrow : ∀ row, row_text row = [] ↔ Forall (fun c => strip c = ""%string) row).
  { intros row. unfold row_text.
    assert (Hm : ∀ l : list string, map strip l = [] ↔ l = [])
      by (intros l; split; [apply map_eq_nil|by intros ->]).
    rewrite Hm, list_filter_nil.
    apply Forall_iff. intros c. destruct (decide (strip c = ""%string)); naive_solver. }
  assert (Hp : Forall (λ p, ¬ strip p ≠ ""%string) (paragraphs doc) ↔
               Forall (fun p => strip p = ""%string) (paragraphs doc)).
  { apply Forall_iff. intros p. destruct (decide (strip p = ""%string)); naive_solver. }
  rewrite Hp. apply and_iff_compat_l.
  induction (tables doc) as [|tb tbs IH]; [split; done|].
  cbn [flat_map]. rewrite app_nil, IH, Forall_cons. apply and_iff_compat_r.
  induction tb as [|row rows IHr]; [split; done|].
  cbn [flat_map]. rewrite app_nil, IHr, Forall_cons. apply and_iff_compat_r.
  rewrite <- Hrow. destruct (row_text row); split; done.
Qed.

Lemma concat_visible_nil xs :
  Forall (fun s => visible s ≠ []) xs → concat (map visible xs) = [] ↔ xs = [].
Proof.
  intros F. split; [|by intros ->].
  destruct F as [|x xs Hx _]; [done|]. simpl. intros H. by apply app_eq_nil in H as [? _].
Qed.

Lemma docx_text_blank doc :
  strip (clean_text (String.concat (String nl (String nl EmptyString)) (full_text doc))) = ""%string
  ↔ full_text doc = [].
Proof.
  rewrite strip_empty, visible_clean_text, visible_concat by done.
  apply concat_visible_nil, full_text_visible.
Qed.

End PageFacts.

Module EmbedFacts.
Import Embedder.

Section Facts.
Context {Emb : Type}.

Lemma zip_seq_elem (ys : list Emb) : ∀ k i a,
  (i, a) ∈ zip (seq k (length ys)) ys → (k <= i)%nat ∧ ys !! (i - k)%nat = Some a.
Proof.
  induction ys as [|y ys IH]; intros k i a Hin; [inversion Hin|].
  cbn [length seq zip] in Hin. apply elem_of_cons in Hin as [[= -> ->]|Hin].
  - rewrite Nat.sub_diag. split; [lia|done].
  - destruct (IH (S k) i a Hin) as [Hk Hl]. split; [lia|].
    replace (i - k)%nat with (S (i - S k)) by lia. done.
Qed.

Lemma zip_seq_sorted (ys : list Emb) : ∀ k,
  StronglySorted index_le (zip (seq k (length ys)) ys).
Proof.
  induction ys as [|y ys IH]; intros k; cbn [length seq zip]; constructor; [apply IH|].
  apply Forall_forall. intros [i a] Hin. apply zip_seq_elem in Hin as [Hk _].
  unfold index_le. simpl. lia.
Qed.

Global Instance index_le_trans : Transitive (@index_le Emb).
Proof. intros x y z. unfold index_le. lia. Qed.

Global Instance index_le_total : Total (@index_le Emb).
Proof. intros x y. unfold index_le. lia. Qed.

Lemma sort_zip_seq (ys : list Emb) data :
  data ≡ₚ zip (seq 0 (length ys)) ys →
  sort_by_index data = zip (seq 0 (length ys)) ys.
Proof.
  intros Hp. unfold sort_by_index.
  apply StronglySorted_unique_strong with (R := index_le).
  - intros [i1 a1] [i2 a2] H1 H2 L1 L2. unfold index_le in L1, L2. simpl in L1, L2.
    assert (i1 = i2) as <- by lia.
    rewrite merge_sort_Permutation, Hp in H1.
    apply zip_seq_elem in H1 as [_ H1], H2 as [_ H2]. congruence.
  - apply StronglySorted_merge_sort; apply _.
  - apply zip_seq_sorted.
  - by rewrite merge_sort_Permutation.
Qed.

Lemma map_snd_zip_seq (ys : list Emb) k : map snd (zip (seq k (length ys)) ys) = ys.
Proof. revert k. induction ys as [|y ys IH]; intros k; simpl; [done|]. by rewrite IH. Qed.

Lemma py_range_batches n : py_range 0 n batch_size =
  map (fun j => j * batch_size)%nat (seq 0 ((n + batch_size - 1) / batch_size)).
Proof. unfold py_range. rewrite Nat.sub_0_r. done. Qed.

Variable create : list string -> string + list (nat * Emb).
Variable f : string -> Emb.
Hypothesis Hcreate : ∀ batch, ∃ data,
  create batch = inr data ∧ data ≡ₚ zip (seq 0 (length batch)) (map f batch).

Definition batch_fn (texts : list string) (acc : string + list Emb) (i : nat)
    : string + list Emb :=
  match acc with
  | inl e => inl e
  | inr all_embeddings =>
      let batch := take batch_size (drop i texts) in
      match create batch with
      | inl e => inl e
      | inr data => inr (all_embeddings ++ map snd (sort_by_index data))
      end
  end.

Lemma batch_step texts a :
  batch_fn texts (inr (map f (take (a * batch_size) texts))) (a * batch_size)%nat
  = inr (map f (take (S a * batch_size) texts)) :> (string + list Emb).
Proof.
  unfold batch_fn. cbv beta iota zeta.
  destruct (Hcreate (take batch_size (drop (a * batch_size) texts))) as (data & Hd & Hp).
  rewrite Hd. rewrite <- length_map with (f := f) in Hp.
  rewrite (sort_zip_seq _ data Hp). rewrite map_snd_zip_seq.
  rewrite <- map_app. f_equal. f_equal.
  replace (S a * batch_size)%nat with (a * batch_size + batch_size)%nat by lia.
  by rewrite take_take_drop.
Qed.

Lemma batches_fold texts b : ∀ a,
  fold_left (batch_fn texts) (map (fun j => j * batch_size)%nat (seq a b))
     (inr (map f (take (a * batch_size) texts)))
  = inr (map f (take ((a + b) * batch_size) texts)).
Proof.
  induction b as [|b IH]; intros a; cbn [seq map fold_left].
  - by rewrite Nat.add_0_r.
  - rewrite (batch_step texts a). rewrite IH. f_equal. f_equal. f_equal. lia.
Qed.

Lemma get_embeddings_ok texts : get_embeddings create texts = inr (map f texts).
Proof.
  unfold get_embeddings. destruct texts as [|t ts] eqn:Et; [done|]. rewrite <- Et.
  change (fold_left ?F ?l ?a) with (fold_left (batch_fn texts) l a).
  rewrite py_range_batches.
  pose proof (batches_fold texts ((length texts + batch_size - 1) / batch_size) 0) as H.
  change (0 * batch_size)%nat with 0%nat in H. rewrite Nat.add_0_l in H. change (map f (take 0 texts)) with (@nil Emb) in H. rewrite H. f_equal. f_equal. apply take_ge.
  unfold batch_size. pose proof (Nat.div_mod (length texts + 100 - 1) 100 ltac:(lia)).
  pose proof (Nat.mod_upper_bound (length texts + 100 - 1) 100 ltac:(lia)). lia.
Qed.

End Facts.
End EmbedFacts.

Module StoreFacts.
Import Heap Chunker Pipeline VectorStore Props.

Lemma append_inj_l (d s1 s2 : string) : (d +:+ s1 = d +:+ s2)%string → s1 = s2.
Proof. induction d as [|c d IH]; simpl; [done|]. intros H. injection H. apply IH. Qed.

Lemma chunk_id_inj d i j : chunk_id d i = chunk_id d j → i = j.
Proof.
  unfold chunk_id. intros H. apply append_inj_l in H.
  injection H as H. by apply pretty_nat_inj in H.
Qed.

Section Facts.
Context {Emb : Type}.

(** The metadata [_store_chunks] builds for a chunk. *)
Definition chunk_md (document_id filename category : string)
    (uploaded_by : option string) (now : string) (c : TextChunk) : gmap string PyVal :=
  <["uploaded_at" := VStr now]>
  (<["uploaded_by" := VStr (uploader uploaded_by)]>
  (<["token_count" := VInt (Z.of_nat (token_count c))]>
  (<["chunk_index" := VInt (Z.of_nat (chunk_index c))]>
  (<["page_number" := VInt (page_number c)]>
  (<["category" := VStr category]>
  (<["document_name" := VStr filename]>
  (<["document_id" := VStr document_id]> ∅))))))).

Lemma store_go_records d fn cat ub now (cs : list TextChunk) : ∀ (es : list Emb) k,
  let '(ids, docs, mds) := store_go d fn cat ub now k cs es in
  records ids docs es mds =
    zip_with (fun '(i, c) e => (chunk_id d i, e, <["text" := VStr (text c)]> (chunk_md d fn cat ub now c)))
      (zip (seq k (length cs)) cs) es.
Proof.
  induction cs as [|c cs IH]; intros es k; [done|].
  destruct es as [|e es]; [done|]. cbn [store_go].
  specialize (IH es (S k)). destruct (store_go d fn cat ub now (S k) cs es) as [[ids docs] mds].
  cbn [records length seq zip zip_with]. rewrite IH. done.
Qed.

Lemma upsert_other (c : Collection Emb) recs k :
  k ∉ map (fun r => r.1.1) recs → upsert c recs !! k = c !! k.
Proof.
  unfold upsert. revert c. induction recs as [|r recs IH]; intros c Hk; [done|].
  cbn [fold_left map] in *. apply not_elem_of_cons in Hk as [Hr Hk].
  rewrite IH by done. by rewrite lookup_insert_ne.
Qed.

Lemma upsert_in (c : Collection Emb) recs r :
  NoDup (map (fun r => r.1.1) recs) → r ∈ recs →
  upsert c recs !! r.1.1 = Some (r.1.2, r.2).
Proof.
  unfold upsert. revert c. induction recs as [|r0 recs IH]; intros c Hn Hin; [inversion Hin|].
  cbn [fold_left map] in *. apply NoDup_cons in Hn as [Hr Hn].
  apply elem_of_cons in Hin as [<-|Hin].
  - fold (upsert (<[r.1.1:=(r.1.2, r.2)]> c) recs).
    rewrite upsert_other by done. by rewrite lookup_insert_eq.
  - by apply IH.
Qed.

Abbreviation store_rec d fn cat ub now :=
  (fun '(i, c) (e : Emb) =>
     (chunk_id d i, e, <["text" := VStr (text c)]> (chunk_md d fn cat ub now c))).

Lemma store_recs_keys d fn cat ub now (cs : list TextChunk) : ∀ (es : list Emb) k,
  map (fun r => r.1.1) (zip_with (store_rec d fn cat ub now) (zip (seq k (length cs)) cs) es)
  = map (chunk_id d) (seq k (min (length cs) (length es))).
Proof.
  induction cs as [|c cs IH]; intros es k; [done|].
  destruct es as [|e es]; [done|]. cbn. by rewrite IH.
Qed.

Lemma store_recs_elem d fn cat ub now (cs : list TextChunk) : ∀ (es : list Emb) k i ch e,
  cs !! i = Some ch → es !! i = Some e →
  (chunk_id d (k + i), e, <["text" := VStr (text ch)]> (chunk_md d fn cat ub now ch))
    ∈ zip_with (store_rec d fn cat ub now) (zip (seq k (length cs)) cs) es.
Proof.
  induction cs as [|c cs IH]; intros es k i ch e Hc He; [done|].
  destruct es as [|e' es]; [done|]. destruct i as [|i]; cbn.
  - injection Hc as <-. injection He as <-. rewrite Nat.add_0_r. left.
  - right. rewrite <- Nat.add_succ_comm. by apply IH.
Qed.

Lemma NoDup_chunk_ids d k n : NoDup (map (chunk_id d) (seq k n)).
Proof.
  apply NoDup_fmap_2; [|apply NoDup_seq].
  intros i j. apply chunk_id_inj.
Qed.

Lemma store_go_ids d fn cat ub now (cs : list TextChunk) : ∀ (es : list Emb) k,
  (store_go d fn cat ub now k cs es).1.1 = map (chunk_id d) (seq k (min (length cs) (length es))).
Proof.
  induction cs as [|c cs IH]; intros es k; [done|].
  destruct es as [|e es]; [done|]. cbn [store_go].
  specialize (IH es (S k)). destruct (store_go d fn cat ub now (S k) cs es) as [[ids docs] mds].
  simpl in *. by rewrite IH.
Qed.

Lemma store_chunks_ids d fn cat (cs : list TextChunk) (es : list Emb) ub now ids docs mds :
  store_chunks d fn cat cs es ub now = (ids, docs, mds) →
  ids = map (chunk_id d) (seq 0 (length ids)).
Proof.
  intros H. pose proof (store_go_ids d fn cat ub now cs es 0) as Hi.
  unfold store_chunks in H. rewrite H in Hi. simpl in Hi. rewrite Hi at 1.
  by rewrite Hi, length_map, length_seq.
Qed.

End Facts.
End StoreFacts.

Module IngestFacts.
Import PyStr Heap Chunker Pipeline VectorStore Ingest Props StrFacts TextFacts StoreFacts.

Ltac ingest_cases :=
  unfold ingest_document; repeat case_match; simplify_eq;
  cbn [id filename category page_count chunk_count status message uploaded_at] in *.

Section Facts.
Context {Emb : Type}.
Variable chunker : TextChunker.
Variable extract : string -> string + list ExtractedPage.
Variable create : list string -> string + list (nat * Emb).
Variable store : Collection Emb -> list string -> list string -> list Emb ->
  list (gmap string PyVal) -> Collection Emb * option string.

Lemma ingest_shape h coll did fp fn cat ub now :
  let '(resp, coll') := ingest_document chunker extract create store h coll did fp fn cat ub now in
  id resp = did ∧ filename resp = fn ∧ category resp = cat ∧ uploaded_at resp = now.
Proof. ingest_cases; done. Qed.

End Facts.
End IngestFacts.

Module RoundTrip.
Import PyStr Heap Chunker Pipeline VectorStore Ingest Props StoreFacts.

Section Facts.
Context {Emb : Type}.

Lemma store_add_other (c : Collection Emb) d fn cat ub now cs (es : list Emb) k :
  let '(ids, docs, mds) := store_chunks d fn cat cs es ub now in
  k ∉ map (chunk_id d) (seq 0 (min (length cs) (length es))) →
  add_documents c ids docs es mds !! k = c !! k.
Proof.
  unfold store_chunks. pose proof (store_go_records d fn cat ub now cs es 0) as R.
  destruct (store_go d fn cat ub now 0 cs es) as [[ids docs] mds].
  intros Hk. unfold add_documents. rewrite R. apply upsert_other.
  by rewrite store_recs_keys.
Qed.

Lemma store_add_in (c : Collection Emb) d fn cat ub now cs (es : list Emb) i ch e :
  cs !! i = Some ch → es !! i = Some e →
  let '(ids, docs, mds) := store_chunks d fn cat cs es ub now in
  add_documents c ids docs es mds !! chunk_id d i =
    Some (e, <["text" := VStr (text ch)]> (chunk_md d fn cat ub now ch)).
Proof.
  intros Hc He. unfold store_chunks. pose proof (store_go_records d fn cat ub now cs es 0) as R.
  destruct (store_go d fn cat ub now 0 cs es) as [[ids docs] mds].
  unfold add_documents. rewrite R.
  pose proof (store_recs_elem d fn cat ub now cs es 0 i ch e Hc He) as Hin.
  apply (upsert_in c _ _) in Hin; [exact Hin|].
  rewrite store_recs_keys. apply NoDup_chunk_ids.
Qed.

Lemma chunk_md_text d fn cat ub now ch :
  chunk_md d fn cat ub now ch !! "text"%string = None.
Proof. unfold chunk_md. by simplify_map_eq. Qed.

Lemma chunk_md_of_document d fn cat ub now ch (e : Emb) :
  of_document d (e, <["text" := VStr (text ch)]> (chunk_md d fn cat ub now ch)).
Proof. unfold of_document, chunk_md. simpl. by simplify_map_eq. Qed.

End Facts.

Lemma chunk_pages_nonempty self h pg rest n cat :
  strip (pg_text pg) ≠ ""%string → (chunk_pages self h (pg :: rest) n cat).2 ≠ [].
Proof.
  intros Ht. cbn [chunk_pages].
  destruct (alloc h _) as [h1 bl].
  pose proof (TextFacts.chunk_text_nonempty self h1 (pg_text pg) (pg_number pg) (Some bl) Ht) as Hne.
  destruct (chunk_text self h1 (pg_text pg) (pg_number pg) (Some bl)) as [h2 pcs].
  destruct (chunk_pages self h2 rest n cat) as [h3 rs]. simpl in *.
  intros Happ. apply app_nil in Happ as [-> _]. done.
Qed.

Lemma pdf_pages_nonblank fp doc : ∀ n,
  Forall (fun pg => strip (pg_text pg) ≠ ""%string) (Extractor.pdf_pages fp n doc).
Proof.
  intros n. apply Forall_forall. intros pg Hpg.
  destruct (PageFacts.pdf_pages_sound fp doc n pg Hpg) as (k & page & _ & _ & Ht & Hb & _).
  rewrite Ht. intros H. apply Hb. by apply CleanFacts.clean_text_blank.
Qed.

Lemma extract_pdf_nonblank open_pdf fp pages :
  Extractor.extract_pdf open_pdf fp = inr pages →
  Forall (fun pg => strip (pg_text pg) ≠ ""%string) pages.
Proof.
  unfold Extractor.extract_pdf. destruct (open_pdf fp); [discriminate|].
  intros H. injection H as <-. apply pdf_pages_nonblank.
Qed.

Lemma extract_docx_nonblank open_docx fp pages :
  Extractor.extract_docx open_docx fp = inr pages →
  Forall (fun pg => strip (pg_text pg) ≠ ""%string) pages.
Proof.
  unfold Extractor.extract_docx. destruct (open_docx fp) as [e|d]; [discriminate|].
  generalize (Extractor.clean_text (String.concat (String Extractor.nl (String Extractor.nl EmptyString))
    (Extractor.full_text d))) as ct. intros ct H. injection H as <-.
  case_bool_decide as Hb; [constructor|]. constructor; [exact Hb|constructor].
Qed.

Section Ingest.
Context {Emb : Type}.
Variable chunker : TextChunker.
Variable extract : string -> string + list ExtractedPage.
Variable create : list string -> string + list (nat * Emb).

Lemma ingest_nonblank_pages (store : Collection Emb -> list string -> list string -> list Emb ->
    list (gmap string PyVal) -> Collection Emb * option string) h coll did fp fn cat ub now :
  (∀ pages, extract fp = inr pages → Forall (fun pg => strip (pg_text pg) ≠ ""%string) pages) →
  message (ingest_document chunker extract create store h coll did fp fn cat ub now).1
    ≠ "No chunks created from document"%string.
Proof.
  intros Hext. unfold ingest_document.
  destruct (extract fp) as [e|pages] eqn:E; [simpl; by destruct e|].
  destruct pages as [|pg rest]; [done|].
  specialize (Hext _ eq_refl). apply Forall_cons in Hext as [Hpg _].
  pose proof (chunk_pages_nonempty chunker h pg rest fn (value cat) Hpg) as Hne.
  destruct (chunk_pages chunker h (pg :: rest) fn (value cat)) as [h' chunks].
  simpl in Hne. destruct chunks as [|ch chunks]; [done|].
  repeat case_match; simpl; try done; by destruct s.
Qed.

End Ingest.
End RoundTrip.

Module MoreFacts.
Import PyStr Heap Chunker Pipeline Embedder VectorStore Props StrFacts StoreFacts.

(** [_get_overlap] on a non-empty list runs its loop on the reversed list. *)
Lemma get_overlap_cons self l tt :
  l ≠ [] → get_overlap self l tt = overlap_go self (rev l) [] 0.
Proof. destruct l; done. Qed.

Lemma overlap_go_keeps self rs acc ot :
  acc ≠ [] → (overlap_go self rs acc ot).1 ≠ [].
Proof.
  intros Ha. destruct (SplitFacts.overlap_go_spec self rs acc ot) as (k & -> & _).
  simpl. intros H. apply app_nil in H as [_ ?]. done.
Qed.

Lemma get_overlap_last self pre s tt :
  (get_overlap self (pre ++ [s]) tt).1 = [] ↔
  chunk_overlap self < Z.of_nat (count_tokens self s).
Proof.
  rewrite get_overlap_cons by (intros H; by apply app_nil in H as [_ ?]).
  rewrite rev_unit. cbn [overlap_go].
  destruct (Z.of_nat (0 + count_tokens self s) <=? chunk_overlap self) eqn:E.
  - apply Z.leb_le in E. split; [|lia]. intros H. exfalso.
    by apply (overlap_go_keeps self (rev pre) [s] (0 + count_tokens self s)).
  - apply Z.leb_gt in E. simpl in *. split; [lia|done].
Qed.

(** Once a batch has failed, the loop of [get_embeddings] keeps the error. *)
Lemma batches_err {Emb} (create : list string → string + list (nat * Emb)) texts l e :
  fold_left (EmbedFacts.batch_fn create texts) l (inl e) = inl e.
Proof. induction l; done. Qed.

Lemma batches_origin {Emb} (create : list string → string + list (nat * Emb)) texts l :
  ∀ a e, fold_left (EmbedFacts.batch_fn create texts) l a = inl e →
  (a = inl e ∨ ∃ i, i ∈ l ∧ create (take batch_size (drop i texts)) = inl e).
Proof.
  induction l as [|i l IH]; intros a e H; [by left|]. cbn [fold_left] in H.
  apply IH in H as [H|(j & Hj & Hc)]; [|right; exists j; split; [by right|done]].
  unfold EmbedFacts.batch_fn at 1 in H. destruct a as [e'|es]; [by left|].
  destruct (create (take batch_size (drop i texts))) eqn:E; [|done].
  injection H as ->. right. exists i. split; [left|done].
Qed.

Lemma py_range_lt n j : j ∈ py_range 0 n batch_size → (j < n)%nat.
Proof.
  rewrite EmbedFacts.py_range_batches. intros Hj.
  apply list_elem_of_fmap in Hj as (q & -> & Hq). apply elem_of_seq in Hq.
  unfold batch_size in *.
  pose proof (Nat.div_mod (n + 100 - 1) 100 ltac:(lia)).
  pose proof (Nat.mod_upper_bound (n + 100 - 1) 100 ltac:(lia)). lia.
Qed.

Lemma get_embeddings_fold {Emb} (create : list string → string + list (nat * Emb)) texts :
  texts ≠ [] →
  get_embeddings create texts =
  fold_left (EmbedFacts.batch_fn create texts) (py_range 0 (length texts) batch_size) (inr []).
Proof. destruct texts; done. Qed.

(** The digits of [pretty n] contain no ["_"]. *)
Lemma pretty_N_go_no_us x s :
  "_"%char ∉ list_ascii_of_string s → "_"%char ∉ list_ascii_of_string (pretty_N_go x s).
Proof.
  revert s. induction (N.lt_wf_0 x) as [x _ IH]; intros s Hs.
  destruct (decide (x = 0)%N) as [->|Hx]; [by rewrite pretty_N_go_0|].
  rewrite pretty_N_go_step by lia. apply IH; [apply N.div_lt; lia|].
  simpl. apply not_elem_of_cons. split; [|done].
  unfold pretty_N_char. by repeat case_match.
Qed.

Lemma pretty_nat_no_us (n : nat) : "_"%char ∉ list_ascii_of_string (pretty n).
Proof.
  unfold pretty, pretty_nat, pretty, pretty_N. case_decide; [simpl; set_solver|].
  apply pretty_N_go_no_us. simpl. set_solver.
Qed.

Lemma append_us_inj (d1 d2 p1 p2 : string) :
  "_"%char ∉ list_ascii_of_string p1 → "_"%char ∉ list_ascii_of_string p2 →
  (d1 +:+ "_" +:+ p1 = d2 +:+ "_" +:+ p2)%string → d1 = d2 ∧ p1 = p2.
Proof.
  revert d2. induction d1 as [|c1 d1 IH]; intros [|c2 d2] H1 H2 H; simpl in H.
  - by injection H.
  - injection H as <- Hp. exfalso. apply H1. change ("" +:+ p1)%string with p1 in Hp.
    rewrite Hp, list_ascii_of_string_app. simpl. set_solver.
  - injection H as -> Hp. exfalso. apply H2. change ("" +:+ p2)%string with p2 in Hp.
    rewrite <- Hp, list_ascii_of_string_app. simpl. set_solver.
  - injection H as -> H. destruct (IH d2 H1 H2 H) as [-> ->]. done.
Qed.

Lemma chunk_id_inj2 d1 d2 i j : chunk_id d1 i = chunk_id d2 j → d1 = d2 ∧ i = j.
Proof.
  unfold chunk_id. intros H.
  destruct (append_us_inj d1 d2 (pretty i) (pretty j) (pretty_nat_no_us i) (pretty_nat_no_us j) H)
    as [-> Hp].
  split; [done|]. by apply pretty_nat_inj.
Qed.

End MoreFacts.

Module Extras.
Import PyStr Sentences Heap Chunker Pipeline Extractor Embedder VectorStore Ingest Props.
Import StrFacts SentFacts WordFacts RunFacts TextFacts CleanFacts PageFacts.
Import EmbedFacts StoreFacts IngestFacts RoundTrip MoreFacts.

(** Concrete inputs for the examples below. *)
Definition ex_pdf : list PdfPage :=
  [mkPdfPage "Campus rules.  Be kind." (VInt 595) (VInt 842);
   mkPdfPage "   " (VInt 595) (VInt 842)].

Definition ex_open_pdf (file_path : string) : string + list PdfPage := inr ex_pdf.

Definition ex_docx : Docx :=
  mkDocx ["Hostel rules."; "  "] [[["Room"; " "]; ["  "]]].

Definition ex_open_docx (file_path : string) : string + Docx := inr ex_docx.

(** An embeddings API that answers with the items in reverse order. *)
Definition ex_create (batch : list string) : string + list (nat * nat) :=
  inr (rev (zip (seq 0 (length batch)) (map String.length batch))).

Definition ex_texts : list string := map (fun n => pretty n) (seq 0 250).

Definition ex_chunk : TextChunk := mkTextChunk "Be kind." 0%nat 1 0%nat 2%nat.

Definition ex_coll : Collection nat :=
  <["a_0" := (3%nat, <["document_id" := VStr "a"]> ∅)]>
  (<["b_0" := (4%nat, <["document_id" := VStr "b"]> ∅)]> ∅).

(** Extra X1. [_split_into_sentences] returns non-empty, stripped
    sentences, and together they keep every non-whitespace character of
    the text, in order. *)
Theorem split_into_sentences_cover t :
  Forall (fun s => s ≠ ""%string ∧ strip s = s) (split_into_sentences t) ∧
  concat (map visible (split_into_sentences t)) = visible t.
Proof.
  split; [|apply split_into_sentences_visible].
  apply Forall_forall. intros s Hs. by apply (split_into_sentences_shape t).
Qed.

(** Extra X2. [_split_long_text] keeps the words of the text, in order,
    and none of its pieces is blank. *)
Theorem split_long_text_keeps_words self t :
  flat_map split (split_long_text self t) = split t ∧
  Forall (fun p => strip p ≠ ""%string) (split_long_text self t).
Proof.
  destruct (split_long_text_words self t) as [Hw Hv]. split; [done|].
  eapply Forall_impl; [exact Hv|]. intros p Hp. by apply nonblank_visible.
Qed.

(** Extra X3. [chunk_text] returns no chunk exactly when the text is
    blank (empty or whitespace only). *)
Theorem chunk_text_empty_iff_blank self h t p base :
  (chunk_text self h t p base).2 = [] ↔ strip t = ""%string.
Proof.
  split.
  - intros H. destruct (decide (strip t = ""%string)) as [|Hn]; [done|].
    by apply (chunk_text_nonempty self h t p base) in Hn.
  - intros Ht. unfold chunk_text. by case_bool_decide.
Qed.

(** Extra X4. Every chunk of [chunk_text] has a non-empty, stripped text
    and carries the page number it was given. *)
Theorem chunk_text_chunks_stripped self h t p base :
  Forall (fun c => text c ≠ ""%string ∧ strip (text c) = text c ∧ page_number c = p)
    (chunk_text self h t p base).2.
Proof.
  pose proof (chunk_text_texts self h t p base) as T.
  pose proof (chunk_text_frame self h t p base) as F.
  destruct (chunk_text self h t p base) as [h' cs]. destruct F as (_ & _ & F).
  simpl in *. apply Forall_forall. intros c Hc. rewrite Forall_forall in T, F.
  destruct (T c Hc) as [T1 T2]. destruct (F c Hc) as (_ & _ & _ & F4). done.
Qed.

(** Extra X5. The overlap [_get_overlap] carries over is empty exactly
    when the last sentence alone has more tokens than [chunk_overlap]. *)
Theorem get_overlap_empty_iff self pre s tt :
  (get_overlap self (pre ++ [s]) tt).1 = [] ↔
  chunk_overlap self < Z.of_nat (count_tokens self s).
Proof. apply get_overlap_last. Qed.

(** Extra X6. [chunk_pages] leaves the existing heap objects unchanged,
    and each chunk comes from one of the pages, with a metadata dict of
    its own holding that page's source, the category and the document
    name. *)
Theorem chunk_pages_metadata self h pages n cat :
  let '(h', cs) := chunk_pages self h pages n cat in
  (∀ l, l ∈ dom h → h' !! l = h !! l) ∧
  Forall (fun c => (metadata c ∉ dom h) ∧ ∃ pg, pg ∈ pages ∧ page_number c = pg_number pg ∧
    dict_at h' (metadata c) =
      <["source" := default (VStr "") (pg_metadata pg !! "source"%string)]>
      (<["category" := VStr cat]> (<["document_name" := VStr n]> ∅))) cs.
Proof.
  pose proof (chunk_pages_frame self pages h n cat) as F.
  destruct (chunk_pages self h pages n cat) as [h' cs]. destruct F as (_ & K & F).
  split; [done|]. eapply Forall_impl; [exact F|].
  intros c (N & _ & pg & Hp & Hn & Hd). split; [done|]. exists pg. split_and!; [done|done|exact Hd].
Qed.

(** Extra X7. [_clean_text] returns a stripped text that keeps every
    non-whitespace character of its input, in order. *)
Theorem clean_text_keeps_visible t :
  strip (clean_text t) = clean_text t ∧ visible (clean_text t) = visible t.
Proof. split; [apply clean_text_stripped|apply visible_clean_text]. Qed.

(** Extra X8. When the PDF opens, [_extract_pdf] returns one page per
    page of the document whose text is not blank, numbered from 1 in
    document order, with the cleaned text and the source path. *)
Theorem extract_pdf_pages open_pdf fp doc :
  open_pdf fp = inr doc →
  ∃ pages, extract_pdf open_pdf fp = inr pages ∧
  (∀ pg, pg ∈ pages → ∃ k page, doc !! k = Some page ∧
     pg_number pg = Z.of_nat (S k) ∧ pg_text pg = clean_text (get_text page) ∧
     strip (get_text page) ≠ ""%string ∧
     pg_metadata pg !! "source"%string = Some (VStr fp)) ∧
  (∀ k page, doc !! k = Some page → strip (get_text page) ≠ ""%string →
     ∃ pg, pg ∈ pages ∧ pg_number pg = Z.of_nat (S k)) ∧
  StronglySorted (fun a b => pg_number a < pg_number b) pages.
Proof.
  intros E. unfold extract_pdf. rewrite E. eexists. split_and!; [reflexivity| | |].
  - intros pg Hpg. destruct (pdf_pages_sound fp doc 0 pg Hpg)
      as (k & page & Hk & Hn & Ht & Hb & Hs & _).
    exists k, page. done.
  - intros k page Hk Hb. exact (pdf_pages_complete fp doc 0 k page Hk Hb).
  - apply pdf_pages_sorted.
Qed.

(** Extra X9. When the DOCX opens, [_extract_docx] returns at most one
    page; it returns none exactly when every paragraph and every table
    cell is blank, and otherwise a page numbered 1 with a non-empty,
    stripped text and the source path. *)
Theorem extract_docx_pages open_docx fp doc :
  open_docx fp = inr doc →
  ∃ pages, extract_docx open_docx fp = inr pages ∧ (length pages <= 1)%nat ∧
  (pages = [] ↔ Forall (fun p => strip p = ""%string) (paragraphs doc) ∧
                Forall (Forall (Forall (fun c => strip c = ""%string))) (tables doc)) ∧
  Forall (fun pg => pg_number pg = 1 ∧ pg_text pg ≠ ""%string ∧
                    strip (pg_text pg) = pg_text pg ∧
                    pg_metadata pg !! "source"%string = Some (VStr fp)) pages.
Proof.
  intros E. unfold extract_docx. rewrite E. eexists. split; [reflexivity|].
  pose proof (docx_text_blank doc) as B. pose proof (full_text_nil doc) as N.
  pose proof (clean_text_stripped (String.concat (String nl (String nl EmptyString)) (full_text doc))) as S.
  revert B S.
  generalize (clean_text (String.concat (String nl (String nl EmptyString)) (full_text doc))) as ct.
  intros ct B S. case_bool_decide as Hb.
  - split_and!; [simpl; lia| |constructor]. split; [intros _|done]. by apply N, B.
  - split_and!; [simpl; lia| |].
    + split; [done|]. intros H. exfalso. by apply Hb, B, N.
    + constructor; [|constructor]. simpl. split_and!; [done| |done|by simplify_map_eq].
      intros Hct. apply Hb. by rewrite Hct.
Qed.

(** Extra X10. When every call of the embeddings API returns, in any
    order, one item per text with its index, [get_embeddings] returns the
    embeddings in the order of the texts, across all batches of 100. *)
Theorem get_embeddings_in_order {Emb} (create : list string → string + list (nat * Emb))
    (f : string → Emb) texts :
  (∀ batch, ∃ data, create batch = inr data ∧
     data ≡ₚ zip (seq 0 (length batch)) (map f batch)) →
  get_embeddings create texts = inr (map f texts).
Proof. intros H. exact (get_embeddings_ok create f H texts). Qed.

(** Extra X11. After [_store_chunks] and [add_documents], the i-th chunk
    with an embedding is stored under [{document_id}_{i}] with its
    embedding and metadata of the document; [search] returns for it the
    chunk's text and the metadata without the text.  Records under other
    ids are unchanged. *)
Theorem add_documents_chunk_lookup {Emb Dist} (c : Collection Emb) d fn cat ub now cs
    (es : list Emb) (dist : Dist) i ch e :
  cs !! i = Some ch → es !! i = Some e →
  let '(ids, docs, mds) := store_chunks d fn cat cs es ub now in
  let c' := add_documents c ids docs es mds in
  (∃ md, c' !! chunk_id d i = Some (e, md) ∧ of_document d (e, md) ∧
     format_results [(chunk_id d i, dist, md)] =
       ([chunk_id d i], [VStr (text ch)], [chunk_md d fn cat ub now ch], [dist])) ∧
  (∀ k, (∀ j, k ≠ chunk_id d j) → c' !! k = c !! k).
Proof.
  intros Hc He. pose proof (store_add_in c d fn cat ub now cs es i ch e Hc He) as Hin.
  pose proof (store_add_other c d fn cat ub now cs es) as Hout.
  destruct (store_chunks d fn cat cs es ub now) as [[ids docs] mds]. split.
  - eexists. split_and!; [exact Hin|apply chunk_md_of_document|].
    unfold format_results. cbn. rewrite lookup_insert_eq, delete_insert_id; [done|].
    apply chunk_md_text.
  - intros k Hk. apply Hout. intros Hm. apply list_elem_of_fmap in Hm as (j & -> & _).
    by apply (Hk j).
Qed.

Section Ingest.
Context {Emb : Type}.
Variable chunker : TextChunker.
Variable extract : string -> string + list ExtractedPage.
Variable create : list string -> string + list (nat * Emb).

(** Extra X13. [ingest_document] echoes the id, filename, category and
    time, and either succeeds with a positive page and chunk count and a
    message naming the chunk count, or reports an error with no chunks. *)
Theorem ingest_response_status store h coll did fp fn cat ub now :
  let '(resp, coll') := ingest_document chunker extract create store h coll did fp fn cat ub now in
  id resp = did ∧ filename resp = fn ∧ category resp = cat ∧ uploaded_at resp = now ∧
  ((status resp = "success"%string ∧ (0 < page_count resp)%nat ∧ (0 < chunk_count resp)%nat ∧
    message resp = ("Document processed successfully. Created " +:+
                    pretty (chunk_count resp) +:+ " searchable chunks.")%string) ∨
   (status resp = "error"%string ∧ chunk_count resp = 0%nat ∧
    (page_count resp = 0%nat ∨ message resp = "No chunks created from document"%string ∨
     ∃ e, message resp = ("Error processing document: " +:+ e)%string))).
Proof.
  ingest_cases; split_and!; try done.
  all: try (right; split_and!; auto; fail).
  all: first [left; split_and!; auto; simpl; lia | right; split_and!; auto; right; right; by eexists].
Qed.

(** Extra X14. [ingest_document] either leaves the collection as it was
    and reports an error, or has called the store once with ids
    [{document_id}_0], [{document_id}_1], ..., the collection being the
    one the store returned; it reports success exactly when the store
    raised no error. *)
Theorem ingest_store_call store h coll did fp fn cat ub now :
  let '(resp, coll') := ingest_document chunker extract create store h coll did fp fn cat ub now in
  (coll' = coll ∧ status resp = "error"%string) ∨
  ∃ ids docs embs mds e,
    store coll ids docs embs mds = (coll', e) ∧
    ids = map (chunk_id did) (seq 0 (length ids)) ∧
    (status resp = "success"%string ↔ e = None).
Proof.
  ingest_cases; try (left; done).
  all: right; match goal with
    | Hc : store_chunks _ _ _ _ _ _ _ = (?i, ?d, ?m), Hs : _ ?co ?i ?d ?em ?m = (?c, ?e) |- _ =>
        exists i, d, em, m, e; split_and!; [exact Hs|exact (store_chunks_ids _ _ _ _ _ _ _ _ _ _ Hc)|]
    end.
  - split; [discriminate|done].
  - done.
Qed.

(** Extra X15. With [DocumentExtractor.extract] (it raises, or returns
    the pages of [_extract_pdf] or [_extract_docx]), [ingest_document]
    never reports "No chunks created from document". *)
Theorem ingest_never_no_chunks store open_pdf open_docx h coll did fp fn cat ub now :
  (extract fp = extract_pdf open_pdf fp ∨ extract fp = extract_docx open_docx fp ∨
   ∃ e, extract fp = inl e) →
  message (ingest_document chunker extract create store h coll did fp fn cat ub now).1
    ≠ "No chunks created from document"%string.
Proof.
  intros Hx. apply ingest_nonblank_pages. intros pages Hp.
  destruct Hx as [Hx|[Hx|[e Hx]]]; rewrite Hx in Hp.
  - by apply (extract_pdf_nonblank open_pdf fp).
  - by apply (extract_docx_nonblank open_docx fp).
  - discriminate.
Qed.

End Ingest.

(** Extra X17. When the embeddings API fails on the first batch,
    [get_embeddings] fails with that error and returns no embeddings. *)
Theorem get_embeddings_first_batch_error {Emb} (create : list string → string + list (nat * Emb))
    texts e :
  texts ≠ [] → create (take batch_size texts) = inl e → get_embeddings create texts = inl e.
Proof.
  intros Ht Hc. rewrite get_embeddings_fold by done. rewrite py_range_batches.
  assert (Hq : (1 <= (length texts + batch_size - 1) / batch_size)%nat).
  { apply Nat.div_le_lower_bound; unfold batch_size; [lia|].
    destruct texts; [done|]. simpl. lia. }
  destruct ((length texts + batch_size - 1) / batch_size)%nat as [|q]; [lia|].
  cbn [seq map fold_left]. unfold batch_fn at 2. rewrite Nat.mul_0_l, drop_0, Hc.
  apply batches_err.
Qed.

(** Extra X18. An error of [get_embeddings] is the error of the
    embeddings API on one of its batches [texts[i:i + 100]]. *)
Theorem get_embeddings_error_origin {Emb} (create : list string → string + list (nat * Emb))
    texts e :
  get_embeddings create texts = inl e →
  ∃ i, (i < length texts)%nat ∧ create (take batch_size (drop i texts)) = inl e.
Proof.
  destruct texts as [|t ts] eqn:Et; [discriminate|]. rewrite <- Et.
  rewrite get_embeddings_fold by (rewrite Et; done). intros H.
  apply batches_origin in H as [H|(i & Hi & Hc)]; [discriminate|].
  exists i. split; [by apply py_range_lt|done].
Qed.

(** Extra X19. Chunk ids never collide: [{document_id}_{i}] determines
    both the document id and the index. *)
Theorem chunk_id_unique d1 d2 i j : chunk_id d1 i = chunk_id d2 j → d1 = d2 ∧ i = j.
Proof. apply chunk_id_inj2. Qed.

(** Examples: each theorem above with a hypothesis, at a concrete input. *)

Lemma extract_pdf_pages_witness :
  ex_open_pdf "rules.pdf" = inr ex_pdf ∧
  ∃ pages, extract_pdf ex_open_pdf "rules.pdf" = inr pages ∧
    StronglySorted (fun a b => pg_number a < pg_number b) pages.
Proof.
  split; [reflexivity|].
  destruct (extract_pdf_pages ex_open_pdf "rules.pdf" ex_pdf eq_refl) as (pages & E & _ & _ & S).
  exists pages. split; [exact E|exact S].
Defined.

Lemma extract_docx_pages_witness :
  ex_open_docx "rules.docx" = inr ex_docx ∧
  ∃ pages, extract_docx ex_open_docx "rules.docx" = inr pages ∧ (length pages <= 1)%nat.
Proof.
  split; [reflexivity|].
  destruct (extract_docx_pages ex_open_docx "rules.docx" ex_docx eq_refl) as (pages & E & L & _).
  exists pages. split; [exact E|exact L].
Defined.

Lemma get_embeddings_in_order_witness :
  (∀ batch, ∃ data, ex_create batch = inr data ∧
     data ≡ₚ zip (seq 0 (length batch)) (map String.length batch)) ∧
  get_embeddings ex_create ex_texts = inr (map String.length ex_texts).
Proof.
  assert (H : ∀ batch, ∃ data, ex_create batch = inr data ∧
     data ≡ₚ zip (seq 0 (length batch)) (map String.length batch)).
  { intros batch. eexists. split; [reflexivity|]. apply Permutation_sym, Permutation_rev. }
  split; [exact H|]. exact (get_embeddings_in_order ex_create String.length ex_texts H).
Defined.

Lemma add_documents_chunk_lookup_witness :
  [ex_chunk] !! 0%nat = Some ex_chunk ∧ [7%nat] !! 0%nat = Some 7%nat ∧
  ∃ md, (let '(ids, docs, mds) := store_chunks "a" "rules.pdf" "rules" [ex_chunk] [7%nat] None "2026" in
         add_documents ex_coll ids docs [7%nat] mds) !! chunk_id "a" 0 = Some (7%nat, md).
Proof.
  split_and!; [reflexivity|reflexivity|].
  pose proof (add_documents_chunk_lookup ex_coll "a" "rules.pdf" "rules" None "2026"
    [ex_chunk] [7%nat] 0 0%nat ex_chunk 7%nat eq_refl eq_refl) as H.
  destruct (store_chunks "a" "rules.pdf" "rules" [ex_chunk] [7%nat] None "2026") as [[ids docs] mds].
  destruct H as [(md & Hmd & _) _]. by exists md.
Defined.

Lemma ingest_never_no_chunks_witness :
  message (ingest_document (Enc.chunker 800 100) (extract_pdf ex_open_pdf) ex_create
    (fun c i d e m => (add_documents c i d e m, None)) ∅ ex_coll "c" "rules.pdf" "rules.pdf"
    RULES None "2026").1 ≠ "No chunks created from document"%string.
Proof.
  apply (ingest_never_no_chunks (Enc.chunker 800 100) (extract_pdf ex_open_pdf) ex_create _
    ex_open_pdf ex_open_docx).
  left. reflexivity.
Defined.

Lemma get_embeddings_first_batch_error_witness :
  get_embeddings (fun _ => inl "rate limit"%string : string + list (nat * nat)) ["Be kind."%string]
  = inl "rate limit"%string.
Proof. apply get_embeddings_first_batch_error; [discriminate|reflexivity]. Defined.

(** An embeddings API that fails on the batch starting at text ["100"]. *)
Definition ex_create_fail (batch : list string) : string + list (nat * nat) :=
  if bool_decide (head batch = Some "100"%string) then inl "quota exceeded"%string
  else ex_create batch.

Lemma get_embeddings_error_origin_witness :
  get_embeddings ex_create_fail ex_texts = inl "quota exceeded"%string ∧
  ∃ i, (i < length ex_texts)%nat ∧
       ex_create_fail (take batch_size (drop i ex_texts)) = inl "quota exceeded"%string.
Proof.
  assert (H : get_embeddings ex_create_fail ex_texts = inl "quota exceeded"%string)
    by (vm_compute; reflexivity).
  split; [exact H|]. exact (get_embeddings_error_origin ex_create_fail ex_texts _ H).
Defined.

Lemma chunk_id_unique_witness : "a"%string = "a"%string ∧ 3%nat = 3%nat.
Proof. apply (chunk_id_unique "a" "a" 3 3). reflexivity. Defined.

End Extras.

(* ================================================================== *)
(** ** Configuration *)
(* ================================================================== *)

Module Config.
Import PyStr Chunker TextFacts.

(** Claim C2 (amended).  [TextChunker.__init__] validates neither size: for
    any integers it stores them as given, and it fails exactly when the
    encoding name is unknown.  [chunk_text] checks neither size either:
    for any [chunk_size] and [chunk_overlap] (also [chunk_size <= 0] or
    [chunk_overlap >= chunk_size]) and any encoding that gives a count for
    every text, [chunk_text] returns no chunk for a blank text and at least
    one chunk for any other text. *)
Theorem C2_init_no_validation get_encoding cs co name :
  init get_encoding cs co name = option_map (mkTextChunker cs co) (get_encoding name) ∧
  ∀ (enc : Encoding) h t page base,
    (chunk_text (mkTextChunker cs co enc) h t page base).2 = [] ↔ strip t = ""%string.
Proof.
  split.
  - unfold init. by destruct (get_encoding name).
  - intros enc h t page base. split.
    + intros H. destruct (decide (strip t = ""%string)) as [|Hn]; [done|].
      by apply (chunk_text_nonempty (mkTextChunker cs co enc) h t page base) in Hn.
    + intros Ht. unfold chunk_text. by case_bool_decide.
Qed.

End Config.
